(** * TravelCalculator: position estimator of a time-based cover

    Shallow embedding of
    [custom_components/cover_time_based/travelcalculator.py].

    Conventions of the embedding.
    - Positions are Python [int]s: [Z].
    - Durations and clock readings are Python [float]s.  They are embedded
      as exact rationals [Q]: the float arithmetic of the source is read as
      exact arithmetic, rounding is not modelled.
    - [time.time()] is the only effect besides the mutation of [self]: every
      method that reads the clock takes the reading as argument [now], and
      every mutating method returns the new object.
    - The one exception the code can raise is [ZeroDivisionError] (a float
      division by zero raises in Python, it does not give an infinity);
      methods that can reach a division return a [result]. *)

From Stdlib Require Import ZArith QArith Qabs Bool List Lia Lqa.
Import ListNotations.
Local Open Scope Z_scope.

(** ** Errors *)

Inductive result (A : Type) : Type :=
| Ok (a : A)
| ZeroDivisionError.
Arguments Ok {A} a.
Arguments ZeroDivisionError {A}.

Definition bind {A B : Type} (m : result A) (k : A -> result B) : result B :=
  match m with
  | Ok a => k a
  | ZeroDivisionError => ZeroDivisionError
  end.

Definition fmap {A B : Type} (f : A -> B) (m : result A) : result B :=
  bind m (fun a => Ok (f a)).

Notation "x <- m ;; k" := (bind m (fun x => k))
  (at level 61, m at next level, right associativity).

(** ** Numbers *)

(** [a < b] on floats. *)
Definition Qltb (a b : Q) : bool := negb (Qle_bool b a).

(** [a / b] on floats: raises when the divisor is zero. *)
Definition pydiv (a b : Q) : result Q :=
  if Qeq_bool b 0 then ZeroDivisionError else Ok (a / b)%Q.

(** [int(x)] on a float: truncation toward zero. *)
Definition int (x : Q) : Z := Z.quot (Qnum x) (Zpos (Qden x)).

(** [a == b] on [int | None]. *)
Definition opt_eqb (a b : option Z) : bool :=
  match a, b with
  | Some x, Some y => x =? y
  | None, None => true
  | _, _ => false
  end.

(** ** The object *)

Inductive TravelStatus : Type :=
| DIRECTION_UP
| DIRECTION_DOWN
| STOPPED.

Definition TravelStatus_eqb (a b : TravelStatus) : bool :=
  match a, b with
  | DIRECTION_UP, DIRECTION_UP => true
  | DIRECTION_DOWN, DIRECTION_DOWN => true
  | STOPPED, STOPPED => true
  | _, _ => false
  end.

Record TravelCalculator : Type := mkTravelCalculator {
  travel_direction : TravelStatus;
  travel_time_down : Q;
  travel_time_up : Q;
  slats_open_time : Q;
  slats_close_time : Q;
  _last_known_position : option Z;
  _last_known_position_timestamp : Q;
  _position_confirmed : bool;
  _travel_to_position : option Z
}.

(** 100 is closed, 0 is fully open. *)
Definition position_closed : Z := 100.
Definition position_open : Z := 0.

(** [__init__] *)
Definition init (down up slats_open slats_close : Q) : TravelCalculator :=
  {| travel_direction := STOPPED;
     travel_time_down := down;
     travel_time_up := up;
     slats_open_time := slats_open;
     slats_close_time := slats_close;
     _last_known_position := None;
     _last_known_position_timestamp := 0%Q;
     _position_confirmed := false;
     _travel_to_position := None |}.

(** Field updates ([self.f = v]). *)
Definition with_direction (d : TravelStatus) (s : TravelCalculator) :=
  mkTravelCalculator d (travel_time_down s) (travel_time_up s)
    (slats_open_time s) (slats_close_time s) (_last_known_position s)
    (_last_known_position_timestamp s) (_position_confirmed s)
    (_travel_to_position s).

Definition with_position (p : option Z) (s : TravelCalculator) :=
  mkTravelCalculator (travel_direction s) (travel_time_down s)
    (travel_time_up s) (slats_open_time s) (slats_close_time s) p
    (_last_known_position_timestamp s) (_position_confirmed s)
    (_travel_to_position s).

Definition with_timestamp (t : Q) (s : TravelCalculator) :=
  mkTravelCalculator (travel_direction s) (travel_time_down s)
    (travel_time_up s) (slats_open_time s) (slats_close_time s)
    (_last_known_position s) t (_position_confirmed s)
    (_travel_to_position s).

Definition with_confirmed (b : bool) (s : TravelCalculator) :=
  mkTravelCalculator (travel_direction s) (travel_time_down s)
    (travel_time_up s) (slats_open_time s) (slats_close_time s)
    (_last_known_position s) (_last_known_position_timestamp s) b
    (_travel_to_position s).

Definition with_target (p : option Z) (s : TravelCalculator) :=
  mkTravelCalculator (travel_direction s) (travel_time_down s)
    (travel_time_up s) (slats_open_time s) (slats_close_time s)
    (_last_known_position s) (_last_known_position_timestamp s)
    (_position_confirmed s) p.

(** ** Methods *)

Definition set_position (s : TravelCalculator) (position : Z) (now : Q)
  : TravelCalculator :=
  with_confirmed true
    (with_timestamp now (with_position (Some position) s)).

Definition update_position (s : TravelCalculator) (position : Z) (now : Q)
  : TravelCalculator :=
  let s1 := with_timestamp now (with_position (Some position) s) in
  if opt_eqb (Some position) (_travel_to_position s1)
  then with_confirmed true s1
  else s1.

Definition calculate_travel_time (s : TravelCalculator)
  (from_position to_position : Z) : Q :=
  let travel_range := Z.abs (to_position - from_position) in
  let travel_time_full :=
    if from_position >? to_position
    then travel_time_down s else travel_time_up s in
  let slats_time :=
    if (from_position =? 0) || (to_position =? 0)
    then (if from_position >? to_position
          then slats_close_time s else slats_open_time s)
    else 0%Q in
  ((travel_time_full - slats_time) * (inject_Z travel_range / 100)
   + slats_time)%Q.

(** The local function of [_calculate_position]. *)
Definition position_reached_or_exceeded (s : TravelCalculator)
  (relative_position : Z) : bool :=
  if (relative_position <=? 0)
     && TravelStatus_eqb (travel_direction s) DIRECTION_DOWN
  then true
  else if (relative_position >=? 0)
          && TravelStatus_eqb (travel_direction s) DIRECTION_UP
  then true
  else false.

(** The slats time [_calculate_position] applies between two positions. *)
Definition position_slats_time (s : TravelCalculator)
  (last_known travel_to : Z) : Q :=
  if (last_known =? 0) || (travel_to =? 0)
  then (if TravelStatus_eqb (travel_direction s) DIRECTION_DOWN
        then slats_close_time s else slats_open_time s)
  else 0%Q.

(** The local [progress] of [_calculate_position]. *)
Definition progress (elapsed_time slats_time remaining_travel_time : Q)
  : result Q :=
  if Qltb elapsed_time slats_time
  then q <- pydiv elapsed_time slats_time ;; Ok (q * (1 # 10))%Q
  else pydiv (elapsed_time - slats_time)
             (remaining_travel_time - slats_time).

(** The local [elapsed_time] of [_calculate_position]. *)
Definition elapsed_time (s : TravelCalculator) (now : Q) : Q :=
  (now - _last_known_position_timestamp s)%Q.

Definition _calculate_position (s : TravelCalculator) (now : Q)
  : result (option Z) :=
  match _travel_to_position s, _last_known_position s with
  | Some travel_to, Some last_known =>
      let relative_position := travel_to - last_known in
      if position_reached_or_exceeded s relative_position
      then Ok (Some travel_to)
      else
        let remaining_travel_time :=
          calculate_travel_time s last_known travel_to in
        let elapsed := elapsed_time s now in
        if Qltb remaining_travel_time elapsed
        then Ok (Some travel_to)
        else
          let slats_time := position_slats_time s last_known travel_to in
          pr <- progress elapsed slats_time remaining_travel_time ;;
          Ok (Some (int (inject_Z last_known
                         + inject_Z relative_position * pr)%Q))
  | _, _ => Ok (_last_known_position s)
  end.

Definition current_position (s : TravelCalculator) (now : Q)
  : result (option Z) :=
  if negb (_position_confirmed s)
  then _calculate_position s now
  else Ok (_last_known_position s).

Definition stop (s : TravelCalculator) (now : Q) : result TravelCalculator :=
  stop_position <- current_position s now ;;
  match stop_position with
  | None => Ok s
  | Some p =>
      Ok (with_direction STOPPED
            (with_confirmed false
               (with_target (Some p) (with_position (Some p) s))))
  end.

Definition start_travel (s : TravelCalculator) (travel_to : Z) (now : Q)
  : result TravelCalculator :=
  match _last_known_position s with
  | None => Ok (set_position s travel_to now)
  | Some _ =>
      s1 <- stop s now ;;
      let s2 :=
        with_confirmed false
          (with_target (Some travel_to) (with_timestamp now s1)) in
      Ok (with_direction
            (match _last_known_position s2 with
             | Some last_known =>
                 if travel_to >? last_known
                 then DIRECTION_DOWN else DIRECTION_UP
             | None => DIRECTION_UP
             end) s2)
  end.

Definition start_travel_up (s : TravelCalculator) (now : Q) :=
  start_travel s position_open now.

Definition start_travel_down (s : TravelCalculator) (now : Q) :=
  start_travel s position_closed now.

Definition start_travel_tilt (s : TravelCalculator) (travel_to : Z) (now : Q)
  : result TravelCalculator :=
  match _last_known_position s with
  | None => Ok (set_position s travel_to now)
  | Some _ =>
      s1 <- stop s now ;;
      let s2 :=
        with_confirmed false
          (with_target (Some travel_to) (with_timestamp now s1)) in
      Ok (with_direction
            (match _last_known_position s2 with
             | Some last_known =>
                 if travel_to >? last_known
                 then DIRECTION_DOWN else DIRECTION_UP
             | None => DIRECTION_UP
             end) s2)
  end.

Definition start_travel_tilt_up (s : TravelCalculator) (now : Q) :=
  start_travel_tilt s position_open now.

Definition start_travel_tilt_down (s : TravelCalculator) (now : Q) :=
  start_travel_tilt s position_closed now.

Definition is_traveling (s : TravelCalculator) (now : Q) : result bool :=
  p <- current_position s now ;;
  Ok (negb (opt_eqb p (_travel_to_position s))).

Definition is_opening (s : TravelCalculator) (now : Q) : result bool :=
  t <- is_traveling s now ;;
  Ok (t && TravelStatus_eqb (travel_direction s) DIRECTION_UP).

Definition is_closing (s : TravelCalculator) (now : Q) : result bool :=
  t <- is_traveling s now ;;
  Ok (t && TravelStatus_eqb (travel_direction s) DIRECTION_DOWN).

Definition position_reached (s : TravelCalculator) (now : Q) : result bool :=
  p <- current_position s now ;;
  Ok (opt_eqb p (_travel_to_position s)).

Definition is_open (s : TravelCalculator) (now : Q) : result bool :=
  p <- current_position s now ;;
  Ok (opt_eqb p (Some position_open)).

Definition is_closed (s : TravelCalculator) (now : Q) : result bool :=
  p <- current_position s now ;;
  Ok (opt_eqb p (Some position_closed)).

(** ** Histories of calls *)

(** The mutating methods a caller can invoke. *)
Inductive call : Type :=
| SetPosition (position : Z)
| UpdatePosition (position : Z)
| Stop
| StartTravel (travel_to : Z)
| StartTravelUp
| StartTravelDown
| StartTravelTilt (travel_to : Z)
| StartTravelTiltUp
| StartTravelTiltDown.

Definition exec (c : call) (s : TravelCalculator) (now : Q)
  : result TravelCalculator :=
  match c with
  | SetPosition p => Ok (set_position s p now)
  | UpdatePosition p => Ok (update_position s p now)
  | Stop => stop s now
  | StartTravel p => start_travel s p now
  | StartTravelUp => start_travel_up s now
  | StartTravelDown => start_travel_down s now
  | StartTravelTilt p => start_travel_tilt s p now
  | StartTravelTiltUp => start_travel_tilt_up s now
  | StartTravelTiltDown => start_travel_tilt_down s now
  end.

(** The states an object can be in: built by [__init__], then driven by
    calls that returned, each at some clock reading. *)
Inductive reachable : TravelCalculator -> Prop :=
| reachable_init (down up slats_open slats_close : Q) :
    reachable (init down up slats_open slats_close)
| reachable_call (s s' : TravelCalculator) (c : call) (now : Q) :
    reachable s -> exec c s now = Ok s' -> reachable s'.

(** A run of calls, each paired with the clock reading it sees. *)
Fixpoint run (cs : list (call * Q)) (s : TravelCalculator)
  : result TravelCalculator :=
  match cs with
  | [] => Ok s
  | (c, now) :: cs' => s' <- exec c s now ;; run cs' s'
  end.

(** "No position has ever been known": nothing but the constructor and
    no-op calls happened; the object still has no position, no target, and
    has never left [STOPPED]. *)
Definition never_known (s : TravelCalculator) : Prop :=
  _last_known_position s = None
  /\ _travel_to_position s = None
  /\ _position_confirmed s = false
  /\ travel_direction s = STOPPED.

(** ** Derived objects *)

(** The object [stop] leaves behind when the estimate is [p]. *)
Definition stopped_at (s : TravelCalculator) (p : Z) : TravelCalculator :=
  {| travel_direction := STOPPED;
     travel_time_down := travel_time_down s;
     travel_time_up := travel_time_up s;
     slats_open_time := slats_open_time s;
     slats_close_time := slats_close_time s;
     _last_known_position := Some p;
     _last_known_position_timestamp := _last_known_position_timestamp s;
     _position_confirmed := false;
     _travel_to_position := Some p |}.

(** The slats time that applies to an object stopped at [p]. *)
Definition stopped_slats_time (s : TravelCalculator) (p : Z) : Q :=
  if p =? 0 then slats_open_time s else 0%Q.

(** ** The travel-time formula of the specification *)

(** The formula in the words of the specification.  The full travel time is
    the closing duration when [from > to], the opening one otherwise.  The
    slats duration that applies is the one of the direction of the travel,
    as the specification defines it for the interpolation: the closing one
    when the travel is closing (the target lies above the origin), the
    opening one otherwise.  It counts only when one end is position 0. *)
Definition travel_time_formula (closing opening slats_close slats_open : Q)
  (from to : Z) : Q :=
  let travel_range := Z.abs (to - from) in
  let travel_time_full := if to <? from then closing else opening in
  let applicable_slats := if from <? to then slats_close else slats_open in
  let slats_time :=
    if Z.eq_dec from 0 then applicable_slats
    else if Z.eq_dec to 0 then applicable_slats
    else 0%Q in
  ((travel_time_full - slats_time) * (inject_Z travel_range / 100)
   + slats_time)%Q.

(** ** Scenarios *)

(** The worked example of the module docstring: a cover confirmed at 90 at
    time 0. *)
Definition docstring_cover : TravelCalculator :=
  set_position (init 100 100 0 0) 90 0.

(** A cover with closing slats time 20, [travel_time_down] 100 and no
    opening slats time, confirmed fully open at time 0. *)
Definition slats_cover (up : Q) : TravelCalculator :=
  set_position (init 100 up 0 20) 0 0.

(** The same cover once sent to 100 at time 0. *)
Definition slats_cover_closing (up : Q) : TravelCalculator :=
  {| travel_direction := DIRECTION_DOWN;
     travel_time_down := 100;
     travel_time_up := up;
     slats_open_time := 0;
     slats_close_time := 20;
     _last_known_position := Some 0;
     _last_known_position_timestamp := 0;
     _position_confirmed := false;
     _travel_to_position := Some 100 |}.

(** A cover whose slats times equal its travel times, sent from 0 to 100 at
    time 0. *)
Definition all_slats_calls : list (call * Q) :=
  [(SetPosition 0, 0%Q); (StartTravel 100, 0%Q)].

(** A cover with slats times of 20, sent from 0 to 100 at time 10. *)
Definition late_start_calls : list (call * Q) :=
  [(SetPosition 0, 0%Q); (StartTravel 100, 10%Q)].

(** ** Shape of an object *)

(** The timing parameters, which [__init__] sets. *)
Definition timing (s : TravelCalculator) : Q * Q * Q * Q :=
  (travel_time_down s, travel_time_up s, slats_open_time s,
   slats_close_time s).

(** How the optional fields hang together: no target without a position, no
    direction without a target, no confirmation without a position. *)
Definition well_formed (s : TravelCalculator) : Prop :=
  (_last_known_position s = None -> _travel_to_position s = None)
  /\ (_travel_to_position s = None -> travel_direction s = STOPPED)
  /\ (_position_confirmed s = true -> _last_known_position s <> None).

(** ** Constants ([const.py]) *)

(** The slats time of a cover configured without one. *)
Definition DEFAULT_SLATS_TIME : Q := 0.

(** * Properties *)

(** ** Facts about the numbers *)

Lemma Qltb_lt (a b : Q) : Qltb a b = true <-> (a < b)%Q.
Proof.
  unfold Qltb. rewrite negb_true_iff, <- not_true_iff_false, Qle_bool_iff.
  split; [apply Qnot_le_lt | apply Qlt_not_le].
Qed.

Lemma Qltb_ge (a b : Q) : Qltb a b = false <-> (b <= a)%Q.
Proof.
  unfold Qltb. rewrite negb_false_iff. apply Qle_bool_iff.
Qed.

Lemma pydiv_ok (a b : Q) : ~ (b == 0)%Q -> pydiv a b = Ok (a / b)%Q.
Proof.
  intros Hb. unfold pydiv. destruct (Qeq_bool b 0) eqn:E; [|reflexivity].
  apply Qeq_bool_iff in E. contradiction.
Qed.

Lemma pydiv_raises (a b : Q) : (b == 0)%Q -> pydiv a b = ZeroDivisionError.
Proof.
  intros Hb. unfold pydiv. apply Qeq_bool_iff in Hb. now rewrite Hb.
Qed.

Lemma pydiv_inv (a b q : Q) :
  pydiv a b = Ok q -> ~ (b == 0)%Q /\ q = (a / b)%Q.
Proof.
  unfold pydiv. destruct (Qeq_bool b 0) eqn:E; [discriminate|].
  intros [= <-]. split; [|reflexivity].
  intros Hb. apply Qeq_bool_iff in Hb. congruence.
Qed.

Lemma int_inject_Z (z : Z) : int (inject_Z z) = z.
Proof. unfold int. simpl. apply Z.quot_1_r. Qed.

(** Truncation does not depend on how the fraction is written. *)
Lemma int_cross (x : Q) (d : positive) :
  int x = Z.quot (Qnum x * Zpos d) (Zpos (Qden x) * Zpos d).
Proof.
  unfold int. symmetry. apply Z.quot_mul_cancel_r; lia.
Qed.

Lemma int_Qeq (x y : Q) : (x == y)%Q -> int x = int y.
Proof.
  unfold Qeq. intros H.
  rewrite (int_cross x (Qden y)), (int_cross y (Qden x)), H.
  f_equal. lia.
Qed.

Lemma int_le_mono (x y : Q) : (x <= y)%Q -> int x <= int y.
Proof.
  unfold Qle. intros H.
  rewrite (int_cross x (Qden y)), (int_cross y (Qden x)).
  replace (Zpos (Qden y) * Zpos (Qden x)) with (Zpos (Qden x) * Zpos (Qden y))
    by lia.
  apply Z.quot_le_mono; lia.
Qed.

Lemma opt_eqb_refl (a : option Z) : opt_eqb a a = true.
Proof. destruct a; simpl; [apply Z.eqb_refl | reflexivity]. Qed.

Lemma opt_eqb_eq (a b : option Z) : opt_eqb a b = true <-> a = b.
Proof.
  destruct a, b; simpl; try (split; congruence).
  rewrite Z.eqb_eq. split; congruence.
Qed.

(** ** Facts about the methods *)

(** Without a last known position there is no estimate, whatever the rest of
    the object holds. *)
Lemma current_position_unknown (s : TravelCalculator) (now : Q) :
  _last_known_position s = None -> current_position s now = Ok None.
Proof.
  intros H. unfold current_position, _calculate_position. rewrite H.
  destruct (_position_confirmed s), (_travel_to_position s); reflexivity.
Qed.

(** With one, the estimate is a position whenever it is computed. *)
Lemma current_position_known (s : TravelCalculator) (now : Q) (l : Z) :
  _last_known_position s = Some l ->
  current_position s now = ZeroDivisionError
  \/ exists p, current_position s now = Ok (Some p).
Proof.
  intros H. unfold current_position, _calculate_position. rewrite H.
  destruct (_position_confirmed s); simpl; [right; eauto|].
  destruct (_travel_to_position s) as [t|]; [|right; eauto].
  destruct (position_reached_or_exceeded s (t - l)); [right; eauto|].
  destruct (Qltb _ _); [right; eauto|].
  destruct (progress _ _ _); simpl; [right; eauto | left; reflexivity].
Qed.

Lemma stop_known (s : TravelCalculator) (now : Q) (p : Z) :
  current_position s now = Ok (Some p) -> stop s now = Ok (stopped_at s p).
Proof. intros H. unfold stop. rewrite H. reflexivity. Qed.

Lemma stop_unknown (s : TravelCalculator) (now : Q) :
  _last_known_position s = None -> stop s now = Ok s.
Proof.
  intros H. unfold stop. now rewrite (current_position_unknown s now H).
Qed.

Lemma stop_inv (s s' : TravelCalculator) (now : Q) :
  stop s now = Ok s' ->
  (current_position s now = Ok None /\ s' = s)
  \/ exists p, current_position s now = Ok (Some p) /\ s' = stopped_at s p.
Proof.
  unfold stop. destruct (current_position s now) as [[p|]|]; simpl;
    intros [= <-]; [right; eauto | left; auto].
Qed.

(** [start_travel] never meets [None] in its comparison
    [_travel_to_position > self._last_known_position]: past the first test,
    [stop] returns an object that has a position. *)
Lemma stop_keeps_known (s s' : TravelCalculator) (now : Q) (l : Z) :
  _last_known_position s = Some l -> stop s now = Ok s' ->
  exists p, _last_known_position s' = Some p.
Proof.
  intros Hl H. destruct (stop_inv _ _ _ H) as [[Hc ->]|(p & Hc & ->)].
  - eauto.
  - simpl. eauto.
Qed.

Lemma start_travel_tilt_eq (s : TravelCalculator) (t : Z) (now : Q) :
  start_travel_tilt s t now = start_travel s t now.
Proof. reflexivity. Qed.

(** The only call that can return an object without a position is one that did
    nothing. *)
Lemma exec_unknown (c : call) (s s' : TravelCalculator) (now : Q) :
  exec c s now = Ok s' -> _last_known_position s' = None -> s' = s.
Proof.
  assert (Hstop : forall s s', stop s now = Ok s' ->
                    _last_known_position s' = None -> s' = s).
  { intros a a' H Hn. destruct (stop_inv _ _ _ H) as [[_ ->]|(p & _ & ->)];
      [reflexivity | discriminate]. }
  assert (Hstart : forall t s s', start_travel s t now = Ok s' ->
                     _last_known_position s' = None -> s' = s).
  { intros t a a'. unfold start_travel.
    destruct (_last_known_position a) as [l|] eqn:Hl;
      [|intros [= <-]; simpl; discriminate].
    destruct (stop a now) as [a1|] eqn:Hs; simpl; [|discriminate].
    intros [= <-]. simpl. intros Hn.
    destruct (stop_keeps_known _ _ _ _ Hl Hs) as [p Hp]. congruence. }
  destruct c; simpl; unfold start_travel_up, start_travel_down,
    start_travel_tilt_up, start_travel_tilt_down;
    rewrite ?start_travel_tilt_eq; eauto.
  - intros [= <-]. simpl. discriminate.
  - intros [= <-]. unfold update_position.
    destruct (opt_eqb _ _); simpl; discriminate.
Qed.

Lemma reachable_never_known (s : TravelCalculator) :
  reachable s -> _last_known_position s = None -> never_known s.
Proof.
  induction 1 as [d u so sc | s s' c now Hr IH Hc]; intros Hn.
  - repeat split.
  - pose proof (exec_unknown _ _ _ _ Hc Hn) as ->. auto.
Qed.

Lemma run_reachable (cs : list (call * Q)) (s s' : TravelCalculator) :
  reachable s -> run cs s = Ok s' -> reachable s'.
Proof.
  revert s. induction cs as [|[c now] cs IH]; simpl; intros s Hr.
  - intros [= <-]. exact Hr.
  - destruct (exec c s now) as [s1|] eqn:E; simpl; [|discriminate].
    apply IH. eapply reachable_call; eassumption.
Qed.

(** ** The docstring example (C1) *)

Example docstring_start :
  fmap travel_direction (start_travel docstring_cover 60 0) = Ok DIRECTION_UP.
Proof. reflexivity. Qed.

(** C1.  With [travel_time_down = travel_time_up = 100] and both slats times
    0, from the confirmed position 90, [start_travel(60)] at time 0 returns,
    sets the direction to [DIRECTION_UP] (opening), and [current_position()]
    is 80 at elapsed time 10, 70 at 20 and exactly 60 at 30, where
    [position_reached()] is true. *)
Theorem docstring_example :
  exists s,
    start_travel docstring_cover 60 0 = Ok s
    /\ travel_direction s = DIRECTION_UP
    /\ current_position s 10 = Ok (Some 80)
    /\ current_position s 20 = Ok (Some 70)
    /\ current_position s 30 = Ok (Some 60)
    /\ position_reached s 30 = Ok true.
Proof.
  eexists. split; [reflexivity|]. repeat split.
Qed.

(** Before the end the target is not reached. *)
Example docstring_not_reached :
  exists s,
    start_travel docstring_cover 60 0 = Ok s
    /\ position_reached s 10 = Ok false
    /\ position_reached s 20 = Ok false.
Proof. eexists. split; [reflexivity|]. split; reflexivity. Qed.

(** ** The travel-time formula (C4) *)

(** Away from position 0 no slats time applies and the code computes the
    formula. *)
Lemma calculate_travel_time_formula_no_slats (s : TravelCalculator)
  (from to : Z) :
  from <> 0 -> to <> 0 ->
  calculate_travel_time s from to
  = travel_time_formula (travel_time_down s) (travel_time_up s)
      (slats_close_time s) (slats_open_time s) from to.
Proof.
  intros Hf Ht. unfold calculate_travel_time, travel_time_formula.
  rewrite Z.gtb_ltb.
  destruct (Z.eq_dec from 0) as [E|_]; [contradiction|].
  destruct (Z.eq_dec to 0) as [E|_]; [contradiction|].
  apply Z.eqb_neq in Hf, Ht. now rewrite Hf, Ht.
Qed.

(** Between two different positions the code computes the formula with the
    two slats times exchanged: it takes [slats_close_time] when
    [from > to], where the travel is opening, and [slats_open_time] when
    the travel is closing. *)
Lemma calculate_travel_time_exchanged (s : TravelCalculator) (from to : Z) :
  from <> to ->
  calculate_travel_time s from to
  = travel_time_formula (travel_time_down s) (travel_time_up s)
      (slats_open_time s) (slats_close_time s) from to.
Proof.
  intros Hne. unfold calculate_travel_time, travel_time_formula.
  rewrite Z.gtb_ltb.
  assert (Hsw : (if from <? to then slats_open_time s else slats_close_time s)
                = (if to <? from then slats_close_time s
                   else slats_open_time s)).
  { destruct (Z.ltb_spec from to), (Z.ltb_spec to from);
      try reflexivity; lia. }
  rewrite Hsw.
  destruct (Z.eq_dec from 0) as [->|Hf]; [reflexivity|].
  apply Z.eqb_neq in Hf. rewrite Hf. simpl orb.
  destruct (Z.eq_dec to 0) as [->|Ht]; [reflexivity|].
  apply Z.eqb_neq in Ht. now rewrite Ht.
Qed.


(** In the exact reading of the arithmetic a full run takes the configured
    time, whatever the slats time. *)
Lemma calculate_travel_time_full_open (s : TravelCalculator) :
  (calculate_travel_time s 100 0 == travel_time_down s)%Q.
Proof. unfold calculate_travel_time. simpl. field. Qed.

Lemma calculate_travel_time_full_close (s : TravelCalculator) :
  (calculate_travel_time s 0 100 == travel_time_up s)%Q.
Proof. unfold calculate_travel_time. simpl. field. Qed.

(** Nothing to travel: only the slats time is left. *)
Lemma calculate_travel_time_same (s : TravelCalculator) (p : Z) :
  (calculate_travel_time s p p
   == if p =? 0 then slats_open_time s else 0)%Q.
Proof.
  unfold calculate_travel_time.
  rewrite Z.sub_diag, orb_diag. simpl Z.abs.
  replace (p >? p) with false by (symmetry; rewrite Z.gtb_ltb; apply Z.ltb_irrefl).
  destruct (p =? 0); field.
Qed.

(** ** update_position (C7) *)

(** C7, as stated, fails: from a confirmed position 50 with no target, reporting
    30 leaves the position confirmed although 30 is not the target. *)
Lemma update_position_keeps_confirmed :
  let s := set_position (init 100 100 0 0) 50 0 in
  _position_confirmed s = true
  /\ opt_eqb (Some 30) (_travel_to_position s) = false
  /\ _position_confirmed (update_position s 30 1) = true.
Proof. repeat split. Qed.

(** C7, amended.  After [update_position(p)] the last known position is [p],
    the timestamp is the clock reading, and the position is confirmed when
    [p] equals the target or when it was confirmed before; nothing else
    changes. *)
Theorem update_position_spec (s : TravelCalculator) (p : Z) (now : Q) :
  update_position s p now
  = {| travel_direction := travel_direction s;
       travel_time_down := travel_time_down s;
       travel_time_up := travel_time_up s;
       slats_open_time := slats_open_time s;
       slats_close_time := slats_close_time s;
       _last_known_position := Some p;
       _last_known_position_timestamp := now;
       _position_confirmed :=
         opt_eqb (Some p) (_travel_to_position s) || _position_confirmed s;
       _travel_to_position := _travel_to_position s |}.
Proof.
  unfold update_position. cbn -[opt_eqb].
  destruct (opt_eqb (Some p) (_travel_to_position s)); reflexivity.
Qed.

(** ** start_travel (C8, C10) *)

(** What [start_travel] returns from an object that has a position, when the
    estimate taken by [stop] is [q]. *)
Lemma start_travel_known (s : TravelCalculator) (l q t : Z) (now : Q) :
  _last_known_position s = Some l ->
  current_position s now = Ok (Some q) ->
  start_travel s t now
  = Ok {| travel_direction :=
            if t >? q then DIRECTION_DOWN else DIRECTION_UP;
          travel_time_down := travel_time_down s;
          travel_time_up := travel_time_up s;
          slats_open_time := slats_open_time s;
          slats_close_time := slats_close_time s;
          _last_known_position := Some q;
          _last_known_position_timestamp := now;
          _position_confirmed := false;
          _travel_to_position := Some t |}.
Proof.
  intros Hl Hc. unfold start_travel. rewrite Hl, (stop_known _ _ _ Hc).
  reflexivity.
Qed.

Lemma start_travel_raises (s : TravelCalculator) (l t : Z) (now : Q) :
  _last_known_position s = Some l ->
  current_position s now = ZeroDivisionError ->
  start_travel s t now = ZeroDivisionError.
Proof.
  intros Hl Hc. unfold start_travel, stop. rewrite Hl, Hc. reflexivity.
Qed.

(** C8.  From an object that has a position, [start_travel(target)] takes the
    current estimate [q] as new last known position, and sets the direction
    to [DIRECTION_DOWN] (closing) when [target > q], to [DIRECTION_UP]
    (opening) otherwise: when [target] is the current position the direction
    is opening, not stopped.  (The call returns unless the estimate itself
    raises.) *)
Theorem start_travel_direction (s : TravelCalculator) (l t : Z) (now : Q)
  (Hl : _last_known_position s = Some l) :
  (current_position s now = ZeroDivisionError
   /\ start_travel s t now = ZeroDivisionError)
  \/ exists q s',
       current_position s now = Ok (Some q)
       /\ start_travel s t now = Ok s'
       /\ _last_known_position s' = Some q
       /\ _travel_to_position s' = Some t
       /\ travel_direction s'
          = (if t >? q then DIRECTION_DOWN else DIRECTION_UP)
       /\ (q < t -> travel_direction s' = DIRECTION_DOWN)
       /\ (t <= q -> travel_direction s' = DIRECTION_UP)
       /\ (t = q -> travel_direction s' <> STOPPED).
Proof.
  destruct (current_position_known s now l Hl) as [Hc|[q Hc]].
  - left. split; [exact Hc|]. eapply start_travel_raises; eassumption.
  - right. exists q. eexists. split; [exact Hc|].
    split; [apply (start_travel_known s l q t now Hl Hc)|]. simpl.
    repeat split.
    + intros H. apply Z.gtb_lt in H. now rewrite H.
    + intros H. destruct (t >? q) eqn:E; [apply Z.gtb_lt in E; lia|reflexivity].
    + intros ->. replace (q >? q) with false; [discriminate|].
      symmetry. rewrite Z.gtb_ltb. apply Z.ltb_irrefl.
Qed.

Lemma start_travel_direction_witness :
  exists q s',
    current_position docstring_cover 0 = Ok (Some q)
    /\ start_travel docstring_cover 90 0 = Ok s'
    /\ _last_known_position s' = Some q
    /\ _travel_to_position s' = Some 90
    /\ travel_direction s' = DIRECTION_UP.
Proof.
  destruct (start_travel_direction docstring_cover 90 90 0 eq_refl)
    as [[Hc _]|(q & s' & Hc & Hs & Hq & Ht & _ & _ & Hup & _)].
  - discriminate Hc.
  - exists q, s'. repeat split; try assumption.
    apply Hup. injection Hc as <-. apply Z.le_refl.
Defined.

(** From a confirmed position the call always returns. *)
Lemma start_travel_confirmed (s : TravelCalculator) (l t : Z) (now : Q) :
  _last_known_position s = Some l -> _position_confirmed s = true ->
  exists s', start_travel s t now = Ok s'
             /\ _last_known_position s' = Some l
             /\ travel_direction s'
                = (if t >? l then DIRECTION_DOWN else DIRECTION_UP).
Proof.
  intros Hl Hc.
  assert (H : current_position s now = Ok (Some l)).
  { unfold current_position. rewrite Hc, Hl. reflexivity. }
  eexists. split; [apply (start_travel_known s l l t now Hl H)|].
  split; reflexivity.
Qed.

(** C10.  When no position has ever been known, [start_travel(t)] records [t]
    as confirmed last known position and leaves the target absent and the
    direction [STOPPED]; from then on [is_traveling()] is true and
    [position_reached()] is false, the confirmed [t] being compared with an
    absent target. *)
Theorem start_travel_never_known (s : TravelCalculator) (t : Z) (now : Q)
  (Hr : reachable s) (Hn : _last_known_position s = None) :
  exists s',
    start_travel s t now = Ok s'
    /\ _last_known_position s' = Some t
    /\ _position_confirmed s' = true
    /\ _last_known_position_timestamp s' = now
    /\ _travel_to_position s' = None
    /\ travel_direction s' = STOPPED
    /\ forall now',
         current_position s' now' = Ok (Some t)
         /\ is_traveling s' now' = Ok true
         /\ position_reached s' now' = Ok false.
Proof.
  destruct (reachable_never_known s Hr Hn) as (_ & Ht & _ & Hd).
  exists (set_position s t now).
  split; [unfold start_travel; now rewrite Hn|].
  simpl. repeat split; try assumption.
  - unfold is_traveling, current_position. simpl. now rewrite Ht.
  - unfold position_reached, current_position. simpl. now rewrite Ht.
Qed.

Lemma start_travel_never_known_witness :
  exists s',
    start_travel (init 100 100 0 0) 60 0 = Ok s'
    /\ _last_known_position s' = Some 60
    /\ _travel_to_position s' = None
    /\ is_traveling s' 1 = Ok true
    /\ position_reached s' 1 = Ok false.
Proof.
  destruct (start_travel_never_known (init 100 100 0 0) 60 0
              (reachable_init 100 100 0 0) eq_refl)
    as (s' & Hs & Hl & _ & _ & Ht & _ & Hq).
  exists s'. destruct (Hq 1%Q) as (_ & H1 & H2). repeat split; assumption.
Defined.

(** ** stop (C6) *)

Lemma int_origin (p : Z) (x : Q) :
  int (inject_Z p + inject_Z (p - p) * x)%Q = p.
Proof.
  rewrite Z.sub_diag. rewrite <- (int_inject_Z p) at 2.
  apply int_Qeq. change (inject_Z 0) with 0%Q. ring.
Qed.

(** A stopped object estimates its resting position, when it estimates. *)
Lemma current_position_stopped_at (s : TravelCalculator) (p : Z) (now : Q) :
  current_position (stopped_at s p) now = Ok (Some p)
  \/ current_position (stopped_at s p) now = ZeroDivisionError.
Proof.
  unfold current_position, _calculate_position. simpl.
  unfold position_reached_or_exceeded. simpl. rewrite !andb_false_r.
  destruct (Qltb _ _); [left; reflexivity|].
  destruct (progress _ _ _) as [pr|]; simpl; [left|right; reflexivity].
  now rewrite int_origin.
Qed.

Lemma current_position_stopped_at_late (s : TravelCalculator) (p : Z)
  (now : Q) :
  (stopped_slats_time s p < now - _last_known_position_timestamp s)%Q ->
  current_position (stopped_at s p) now = Ok (Some p).
Proof.
  intros H. unfold current_position, _calculate_position. simpl.
  unfold position_reached_or_exceeded. simpl. rewrite !andb_false_r.
  replace (Qltb _ _) with true; [reflexivity|].
  symmetry. apply Qltb_lt. unfold elapsed_time. simpl.
  rewrite (calculate_travel_time_same (stopped_at s p) p). exact H.
Qed.

(** C6, as stated, fails: [stop] does not touch the timestamp.  Stopping at
    time 5 an object whose position was confirmed at time 0 leaves the
    timestamp at 0. *)
Lemma stop_keeps_timestamp :
  exists s',
    stop docstring_cover 5 = Ok s'
    /\ _last_known_position_timestamp s' = 0%Q
    /\ ~ (_last_known_position_timestamp s' == 5)%Q.
Proof.
  eexists. split; [reflexivity|]. split; [reflexivity|]. simpl. discriminate.
Qed.

(** C6, amended.  [stop()] changes nothing when there is no position.  When
    the estimate at the call is [p], it sets both the last known position and
    the target to [p], marks the position unconfirmed, sets the direction to
    [STOPPED] and leaves the timestamp as it was; afterwards
    [is_traveling()] is never true, and it is false at every clock reading
    later than the timestamp by more than the slats time of the resting
    position. *)
Theorem stop_spec (s : TravelCalculator) (now : Q) :
  (_last_known_position s = None -> stop s now = Ok s)
  /\ forall p, current_position s now = Ok (Some p) ->
       exists s',
         stop s now = Ok s'
         /\ _last_known_position s' = Some p
         /\ _travel_to_position s' = Some p
         /\ _position_confirmed s' = false
         /\ _last_known_position_timestamp s'
            = _last_known_position_timestamp s
         /\ travel_direction s' = STOPPED
         /\ forall now',
              is_traveling s' now' <> Ok true
              /\ ((stopped_slats_time s p
                   < now' - _last_known_position_timestamp s)%Q ->
                  is_traveling s' now' = Ok false).
Proof.
  split; [apply stop_unknown|].
  intros p Hc. exists (stopped_at s p).
  split; [apply stop_known, Hc|]. repeat split.
  - unfold is_traveling.
    destruct (current_position_stopped_at s p now') as [-> | ->]; simpl;
      [rewrite Z.eqb_refl|]; discriminate.
  - intros H. unfold is_traveling.
    rewrite (current_position_stopped_at_late s p now' H). simpl.
    now rewrite Z.eqb_refl.
Qed.

Lemma stop_spec_witness :
  stop (init 100 100 0 0) 5 = Ok (init 100 100 0 0)
  /\ exists s',
       stop docstring_cover 5 = Ok s'
       /\ _last_known_position s' = Some 90
       /\ _travel_to_position s' = Some 90
       /\ is_traveling s' 5 = Ok false.
Proof.
  split.
  - apply (proj1 (stop_spec (init 100 100 0 0) 5) eq_refl).
  - destruct (proj2 (stop_spec docstring_cover 5) 90 eq_refl)
      as (s' & Hs & Hl & Ht & _ & _ & _ & Hq).
    exists s'. repeat split; try assumption.
    apply (proj2 (Hq 5%Q)). reflexivity.
Defined.

(** The estimate of a stopped object divides by zero when it is asked at the
    very clock reading of the timestamp. *)
Example stop_then_ask_at_once :
  exists s',
    stop docstring_cover 0 = Ok s' /\ is_traveling s' 0 = ZeroDivisionError.
Proof. eexists. split; reflexivity. Qed.

(** ** The interpolation *)

(** [_calculate_position] once both positions are there. *)
Lemma _calculate_position_known (s : TravelCalculator) (now : Q) (l t : Z) :
  _last_known_position s = Some l -> _travel_to_position s = Some t ->
  _calculate_position s now
  = if position_reached_or_exceeded s (t - l) then Ok (Some t)
    else if Qltb (calculate_travel_time s l t) (elapsed_time s now)
    then Ok (Some t)
    else pr <- progress (elapsed_time s now) (position_slats_time s l t)
                 (calculate_travel_time s l t) ;;
         Ok (Some (int (inject_Z l + inject_Z (t - l) * pr)%Q)).
Proof. intros Hl Ht. unfold _calculate_position. now rewrite Hl, Ht. Qed.

(** When [progress] raises. *)
Lemma progress_raises (e sl r : Q) :
  progress e sl r = ZeroDivisionError
  <-> ((e < sl)%Q /\ (sl == 0)%Q) \/ ((sl <= e)%Q /\ (r == sl)%Q).
Proof.
  unfold progress. destruct (Qltb e sl) eqn:E.
  - apply Qltb_lt in E. unfold pydiv.
    destruct (Qeq_bool sl 0) eqn:Z; simpl.
    + apply Qeq_bool_iff in Z. split; [intros _; left; auto | reflexivity].
    + split; [discriminate|]. intros [[_ H]|[H _]].
      * apply Qeq_bool_iff in H. congruence.
      * exfalso. apply (Qlt_not_le _ _ E H).
  - apply Qltb_ge in E. unfold pydiv.
    destruct (Qeq_bool (r - sl) 0) eqn:Z.
    + apply Qeq_bool_iff in Z. split; [|reflexivity].
      intros _. right. split; [exact E|]. lra.
    + split; [discriminate|]. intros [[H _]|[_ H]].
      * exfalso. apply (Qlt_not_le _ _ H E).
      * assert (H0 : (r - sl == 0)%Q) by lra.
        apply Qeq_bool_iff in H0. congruence.
Qed.

(** Between the start and the end of the travel the progress is a fraction. *)
Lemma progress_bounds (e sl r pr : Q) :
  (0 <= e)%Q -> (e <= r)%Q -> progress e sl r = Ok pr ->
  (0 <= pr)%Q /\ (pr <= 1)%Q.
Proof.
  intros H0 Hr. unfold progress. destruct (Qltb e sl) eqn:E.
  - apply Qltb_lt in E.
    destruct (pydiv e sl) as [q|] eqn:D; simpl; [|discriminate].
    intros [= <-]. apply pydiv_inv in D as [_ ->].
    assert (Hsl : (0 < sl)%Q) by lra.
    assert (Hq0 : (0 <= e / sl)%Q) by (apply Qle_shift_div_l; lra).
    assert (Hq1 : (e / sl <= 1)%Q) by (apply Qle_shift_div_r; lra).
    split; lra.
  - apply Qltb_ge in E. intros D. apply pydiv_inv in D as [Hd ->].
    assert (Hden : (0 < r - sl)%Q) by lra.
    split; [apply Qle_shift_div_l | apply Qle_shift_div_r]; lra.
Qed.

Lemma int_lower (z : Z) (x : Q) : (inject_Z z <= x)%Q -> z <= int x.
Proof.
  intros H. apply int_le_mono in H. now rewrite int_inject_Z in H.
Qed.

Lemma int_upper (z : Z) (x : Q) : (x <= inject_Z z)%Q -> int x <= z.
Proof.
  intros H. apply int_le_mono in H. now rewrite int_inject_Z in H.
Qed.

Lemma inject_Z_sub (a b : Z) :
  (inject_Z (a - b) == inject_Z a - inject_Z b)%Q.
Proof. unfold Z.sub. rewrite inject_Z_plus, inject_Z_opp. ring. Qed.

(** An estimate built from a fraction lies between origin and target. *)
Lemma int_between (l t : Z) (pr : Q) :
  (0 <= pr)%Q -> (pr <= 1)%Q ->
  let p := int (inject_Z l + inject_Z (t - l) * pr)%Q in
  (l <= t -> l <= p <= t) /\ (t <= l -> t <= p <= l).
Proof.
  intros H0 H1 p. subst p.
  pose proof (inject_Z_sub t l) as Hd.
  split; intros Hlt.
  - assert (Hq : (inject_Z l <= inject_Z t)%Q) by (rewrite <- Zle_Qle; lia).
    split; [apply int_lower | apply int_upper]; rewrite Hd; nra.
  - assert (Hq : (inject_Z t <= inject_Z l)%Q) by (rewrite <- Zle_Qle; lia).
    split; [apply int_lower | apply int_upper]; rewrite Hd; nra.
Qed.

(** ** Division by zero (C5) *)

(** C5, as stated, fails: the interpolation has no guard.  With slats time 20
    and travel time 20, at elapsed time 20 the remaining travel time does not
    exceed the slats time, and the estimate raises [ZeroDivisionError]
    instead of returning the target. *)
Lemma division_by_zero_unguarded :
  exists s,
    run all_slats_calls (init 20 20 20 20) = Ok s
    /\ reachable s
    /\ _last_known_position s = Some 0
    /\ _travel_to_position s = Some 100
    /\ (calculate_travel_time s 0 100 <= position_slats_time s 0 100)%Q
    /\ Qltb (elapsed_time s 20) (position_slats_time s 0 100) = false
    /\ current_position s 20 = ZeroDivisionError
    /\ current_position s 20 <> Ok (Some 100).
Proof.
  eexists. split; [reflexivity|]. split.
  - eapply (run_reachable all_slats_calls);
      [apply (reachable_init 20 20 20 20) | reflexivity].
  - repeat split; simpl; discriminate.
Qed.

(** The same with a travel time of 0, asked at the moment of the start. *)
Example division_by_zero_no_travel_time :
  exists s,
    run [(SetPosition 50, 0%Q); (StartTravel 60, 0%Q)] (init 0 0 0 0) = Ok s
    /\ (calculate_travel_time s 50 60 == 0)%Q
    /\ current_position s 0 = ZeroDivisionError.
Proof. eexists. split; [reflexivity|]. split; reflexivity. Qed.

(** C5, amended.  The interpolation raises [ZeroDivisionError] exactly when
    both positions are there, the target is not reached or exceeded, the
    elapsed time does not exceed the remaining travel time, and either the
    elapsed time is below a slats time of 0, or the slats phase is over and
    the remaining travel time equals the slats time.  In every other state
    it returns, and it returns the target once the elapsed time exceeds the
    remaining travel time. *)
Theorem _calculate_position_raises (s : TravelCalculator) (now : Q) :
  (_calculate_position s now = ZeroDivisionError
   <-> exists l t,
         _last_known_position s = Some l
         /\ _travel_to_position s = Some t
         /\ position_reached_or_exceeded s (t - l) = false
         /\ (elapsed_time s now <= calculate_travel_time s l t)%Q
         /\ (((elapsed_time s now < position_slats_time s l t)%Q
              /\ (position_slats_time s l t == 0)%Q)
             \/ ((position_slats_time s l t <= elapsed_time s now)%Q
                 /\ (calculate_travel_time s l t
                     == position_slats_time s l t)%Q)))
  /\ (forall l t,
        _last_known_position s = Some l -> _travel_to_position s = Some t ->
        (calculate_travel_time s l t < elapsed_time s now)%Q ->
        _calculate_position s now = Ok (Some t)).
Proof.
  split.
  - split.
    + unfold _calculate_position.
      destruct (_travel_to_position s) as [t|]; [|discriminate].
      destruct (_last_known_position s) as [l|]; [|discriminate].
      destruct (position_reached_or_exceeded s (t - l)) eqn:R; [discriminate|].
      destruct (Qltb _ _) eqn:E; [discriminate|].
      apply Qltb_ge in E.
      destruct (progress _ _ _) eqn:P; simpl; [discriminate|].
      intros _. exists l, t. repeat split; try assumption.
      now apply progress_raises.
    + intros (l & t & Hl & Ht & R & E & P).
      rewrite (_calculate_position_known s now l t Hl Ht), R.
      apply Qltb_ge in E. rewrite E.
      apply progress_raises in P. now rewrite P.
  - intros l t Hl Ht E.
    rewrite (_calculate_position_known s now l t Hl Ht).
    apply Qltb_lt in E. rewrite E. now destruct (position_reached_or_exceeded _ _).
Qed.

Lemma _calculate_position_raises_witness :
  exists s,
    run all_slats_calls (init 20 20 20 20) = Ok s
    /\ _calculate_position s 20 = ZeroDivisionError
    /\ _calculate_position s 21 = Ok (Some 100).
Proof.
  eexists. split; [reflexivity|]. split.
  - apply (proj1 (_calculate_position_raises _ 20%Q)).
    exists 0, 100. repeat split; try discriminate.
    right. split; [discriminate | reflexivity].
  - apply (proj2 (_calculate_position_raises _ 21%Q) 0 100); reflexivity.
Defined.

(** ** Backward clock readings (C9) *)

(** C9, as stated, fails: the elapsed time is not clamped.  Asked at clock
    reading 0, before the timestamp 10, the elapsed time is -10, the progress
    is -1/20 and the estimate is -5. *)
Lemma backward_clock_negative_progress :
  exists s,
    run late_start_calls (init 100 100 20 20) = Ok s
    /\ reachable s
    /\ (elapsed_time s 0 == -10)%Q
    /\ (exists pr,
          progress (elapsed_time s 0) (position_slats_time s 0 100)
            (calculate_travel_time s 0 100) = Ok pr
          /\ (pr < 0)%Q)
    /\ current_position s 0 = Ok (Some (-5)).
Proof.
  eexists. split; [reflexivity|]. split.
  - eapply (run_reachable late_start_calls);
      [apply (reachable_init 100 100 20 20) | reflexivity].
  - split; [reflexivity|]. split; [|reflexivity].
    eexists. split; reflexivity.
Qed.

(** C9, amended.  The elapsed time of the interpolation is the clock reading
    minus the stored timestamp, as it is.  At a clock reading that is not
    earlier than the timestamp, the progress, whenever the interpolation
    computes it, is a fraction between 0 and 1, and the estimate is
    [int(origin + relative * progress)]. *)
Theorem progress_not_negative (s : TravelCalculator) (now : Q) (l t : Z)
  (pr : Q)
  (Hl : _last_known_position s = Some l)
  (Ht : _travel_to_position s = Some t)
  (Hreached : position_reached_or_exceeded s (t - l) = false)
  (Hclock : (_last_known_position_timestamp s <= now)%Q)
  (Htime : (elapsed_time s now <= calculate_travel_time s l t)%Q)
  (Hpr : progress (elapsed_time s now) (position_slats_time s l t)
           (calculate_travel_time s l t) = Ok pr) :
  elapsed_time s now = (now - _last_known_position_timestamp s)%Q
  /\ (0 <= pr)%Q /\ (pr <= 1)%Q
  /\ _calculate_position s now
     = Ok (Some (int (inject_Z l + inject_Z (t - l) * pr)%Q)).
Proof.
  split; [reflexivity|].
  assert (He : (0 <= elapsed_time s now)%Q) by (unfold elapsed_time; lra).
  destruct (progress_bounds _ _ _ _ He Htime Hpr) as [H0 H1].
  repeat split; try assumption.
  rewrite (_calculate_position_known s now l t Hl Ht), Hreached.
  apply Qltb_ge in Htime. now rewrite Htime, Hpr.
Qed.

Lemma progress_not_negative_witness :
  exists s,
    run late_start_calls (init 100 100 20 20) = Ok s
    /\ _calculate_position s 20 = Ok (Some 5).
Proof.
  eexists. split; [reflexivity|].
  match goal with
  | |- _calculate_position ?c _ = _ =>
      refine (proj2 (proj2 (proj2
        (progress_not_negative c 20%Q 0 100 (10 # 200)
           eq_refl eq_refl eq_refl _ _ _))))
  end.
  - discriminate.
  - discriminate.
  - reflexivity.
Defined.

(** ** The slats phase (C2, C3) *)

Lemma slats_cover_start (up : Q) :
  start_travel (slats_cover up) 100 0 = Ok (slats_cover_closing up).
Proof. reflexivity. Qed.

Lemma slats_cover_estimate (up now : Q) :
  current_position (slats_cover_closing up) now
  = if Qltb (calculate_travel_time (slats_cover_closing up) 0 100)
         (elapsed_time (slats_cover_closing up) now)
    then Ok (Some 100)
    else pr <- progress (elapsed_time (slats_cover_closing up) now) 20
                 (calculate_travel_time (slats_cover_closing up) 0 100) ;;
         Ok (Some (int (inject_Z 0 + inject_Z (100 - 0) * pr)%Q)).
Proof.
  unfold current_position. simpl negb. cbv iota.
  now rewrite (_calculate_position_known (slats_cover_closing up) now 0 100
                 eq_refl eq_refl).
Qed.

(** At the end of the slats phase the estimate is never 10: it is back at the
    origin (or, when the opening travel time is at most 20, the target or an
    error). *)
Lemma slats_cover_at_20 (up : Q) :
  ((up < 20)%Q /\ current_position (slats_cover_closing up) 20 = Ok (Some 100))
  \/ ((up == 20)%Q
      /\ current_position (slats_cover_closing up) 20 = ZeroDivisionError)
  \/ ((20 < up)%Q /\ current_position (slats_cover_closing up) 20 = Ok (Some 0)).
Proof.
  rewrite slats_cover_estimate.
  pose proof (calculate_travel_time_full_close (slats_cover_closing up)) as Hr.
  simpl travel_time_up in Hr.
  destruct (Qltb _ _) eqn:E.
  - left. split; [|reflexivity]. apply Qltb_lt in E. rewrite Hr in E.
    exact E.
  - right. apply Qltb_ge in E. rewrite Hr in E.
    assert (He : (elapsed_time (slats_cover_closing up) 20 == 20)%Q)
      by reflexivity.
    rewrite He in E.
    unfold progress. replace (Qltb _ 20) with false by reflexivity.
    destruct (Qeq_dec up 20) as [H20|H20].
    + left. split; [exact H20|]. rewrite pydiv_raises; [reflexivity|].
      rewrite Hr. lra.
    + right. split; [lra|].
      rewrite pydiv_ok by (rewrite Hr; lra). reflexivity.
Qed.

(** Inside the slats phase, at elapsed time 10, the estimate is 5 (or the
    target, when the opening travel time is below 10). *)
Lemma slats_cover_at_10 (up : Q) :
  ((up < 10)%Q /\ current_position (slats_cover_closing up) 10 = Ok (Some 100))
  \/ ((10 <= up)%Q /\ current_position (slats_cover_closing up) 10 = Ok (Some 5)).
Proof.
  rewrite slats_cover_estimate.
  pose proof (calculate_travel_time_full_close (slats_cover_closing up)) as Hr.
  simpl travel_time_up in Hr.
  destruct (Qltb _ _) eqn:E.
  - left. split; [|reflexivity]. apply Qltb_lt in E. rewrite Hr in E.
    exact E.
  - right. apply Qltb_ge in E. rewrite Hr in E. split; [exact E|].
    reflexivity.
Qed.

(** C2 at its setting, for every opening travel time: the travel is closing
    and the estimate at elapsed time 20 is not 10.  With an opening travel
    time of 100 the estimates at 10 and 20 are 5 and 0. *)
Theorem slats_boundary_estimate :
  (forall up : Q,
     exists s,
       start_travel (slats_cover up) 100 0 = Ok s
       /\ travel_direction s = DIRECTION_DOWN
       /\ current_position s 20 <> Ok (Some 10))
  /\ exists s,
       start_travel (slats_cover 100) 100 0 = Ok s
       /\ current_position s 10 = Ok (Some 5)
       /\ current_position s 20 = Ok (Some 0).
Proof.
  split.
  - intros up. exists (slats_cover_closing up).
    split; [apply slats_cover_start|]. split; [reflexivity|].
    destruct (slats_cover_at_20 up) as [[_ ->]|[[_ ->]|[_ ->]]]; discriminate.
  - exists (slats_cover_closing 100). repeat split.
Qed.

(** C3 at a failing input: closing from 0 to 100 with a closing slats time of
    20, the estimates at elapsed times 10, 19, 20 and 21 are 5, 9, 0 and 1:
    the estimate falls back when the slats phase ends, although the target
    lies above the origin. *)
Theorem slats_phase_not_monotone :
  exists s,
    start_travel (slats_cover 100) 100 0 = Ok s
    /\ travel_direction s = DIRECTION_DOWN
    /\ current_position s 10 = Ok (Some 5)
    /\ current_position s 19 = Ok (Some 9)
    /\ current_position s 20 = Ok (Some 0)
    /\ current_position s 21 = Ok (Some 1)
    /\ current_position s 100 = Ok (Some 100).
Proof.
  exists (slats_cover_closing 100). repeat split.
Qed.

(** ** What does hold of the estimate *)

(** The estimate never leaves the interval between origin and target, at any
    clock reading that is not earlier than the timestamp. *)
Theorem current_position_between (s : TravelCalculator) (now : Q) (l t p : Z)
  (Hl : _last_known_position s = Some l)
  (Ht : _travel_to_position s = Some t)
  (Hclock : (_last_known_position_timestamp s <= now)%Q)
  (Hp : current_position s now = Ok (Some p)) :
  (l <= t -> l <= p <= t) /\ (t <= l -> t <= p <= l).
Proof.
  assert (Hends : forall q, q = l \/ q = t ->
            (l <= t -> l <= q <= t) /\ (t <= l -> t <= q <= l)) by lia.
  unfold current_position in Hp.
  destruct (_position_confirmed s); simpl in Hp.
  - rewrite Hl in Hp. injection Hp as <-. auto.
  - rewrite (_calculate_position_known s now l t Hl Ht) in Hp.
    destruct (position_reached_or_exceeded s (t - l));
      [injection Hp as <-; auto|].
    destruct (Qltb _ _) eqn:E; [injection Hp as <-; auto|].
    apply Qltb_ge in E.
    destruct (progress _ _ _) as [pr|] eqn:P; simpl in Hp; [|discriminate].
    injection Hp as <-.
    assert (He : (0 <= elapsed_time s now)%Q) by (unfold elapsed_time; lra).
    destruct (progress_bounds _ _ _ _ He E P) as [H0 H1].
    now apply int_between.
Qed.

Lemma current_position_between_witness :
  exists s,
    start_travel (slats_cover 100) 100 0 = Ok s
    /\ (0 <= 100 -> 0 <= 9 <= 100) /\ (100 <= 0 -> 100 <= 9 <= 0).
Proof.
  exists (slats_cover_closing 100). split; [reflexivity|].
  apply (current_position_between (slats_cover_closing 100) 19 0 100 9
           eq_refl eq_refl); [discriminate | reflexivity].
Defined.

(** Without a slats time the progress is the elapsed share of the travel
    time. *)
Lemma progress_linear (e sl r : Q) :
  (sl == 0)%Q -> (0 <= e)%Q -> (0 < r)%Q ->
  exists pr, progress e sl r = Ok pr /\ (pr == e / r)%Q.
Proof.
  intros Hsl He Hr. unfold progress.
  replace (Qltb e sl) with false by (symmetry; apply Qltb_ge; lra).
  rewrite pydiv_ok by lra. eexists. split; [reflexivity|].
  rewrite Hsl. field. lra.
Qed.

Lemma Qdiv_le_mono (a b r : Q) :
  (0 < r)%Q -> (a <= b)%Q -> (a / r <= b / r)%Q.
Proof.
  intros Hr Hab. unfold Qdiv. apply Qmult_le_compat_r; [exact Hab|].
  apply Qlt_le_weak, Qinv_lt_0_compat, Hr.
Qed.

(** The estimates at two fractions in order are in order. *)
Lemma int_progress_mono (l t : Z) (pr1 pr2 : Q) :
  (pr1 <= pr2)%Q ->
  let p1 := int (inject_Z l + inject_Z (t - l) * pr1)%Q in
  let p2 := int (inject_Z l + inject_Z (t - l) * pr2)%Q in
  (l <= t -> p1 <= p2) /\ (t <= l -> p2 <= p1).
Proof.
  intros H p1 p2. subst p1 p2.
  pose proof (inject_Z_sub t l) as Hd.
  split; intros Hlt; apply int_le_mono; rewrite Hd.
  - assert (Hq : (inject_Z l <= inject_Z t)%Q) by (rewrite <- Zle_Qle; lia).
    nra.
  - assert (Hq : (inject_Z t <= inject_Z l)%Q) by (rewrite <- Zle_Qle; lia).
    nra.
Qed.

(** Where no slats time applies and the travel takes time, the estimate is
    there at every clock reading from the timestamp on, and it moves from
    the origin toward the target without passing it. *)
Theorem current_position_monotone_no_slats (s : TravelCalculator)
  (now1 now2 : Q) (l t : Z)
  (Hl : _last_known_position s = Some l)
  (Ht : _travel_to_position s = Some t)
  (Hslats : (position_slats_time s l t == 0)%Q)
  (Htime : (0 < calculate_travel_time s l t)%Q)
  (Hclock : (_last_known_position_timestamp s <= now1)%Q)
  (Hnow : (now1 <= now2)%Q) :
  exists p1 p2,
    current_position s now1 = Ok (Some p1)
    /\ current_position s now2 = Ok (Some p2)
    /\ (l <= t -> l <= p1 /\ p1 <= p2 /\ p2 <= t)
    /\ (t <= l -> t <= p2 /\ p2 <= p1 /\ p1 <= l).
Proof.
  assert (He1 : (0 <= elapsed_time s now1)%Q) by (unfold elapsed_time; lra).
  assert (He12 : (elapsed_time s now1 <= elapsed_time s now2)%Q)
    by (unfold elapsed_time; lra).
  assert (He2 : (0 <= elapsed_time s now2)%Q) by lra.
  assert (Hclock2 : (_last_known_position_timestamp s <= now2)%Q) by lra.
  destruct (progress_linear _ _ _ Hslats He1 Htime) as (pr1 & P1 & Q1).
  destruct (progress_linear _ _ _ Hslats He2 Htime) as (pr2 & P2 & Q2).
  assert (H12 : (pr1 <= pr2)%Q)
    by (rewrite Q1, Q2; now apply Qdiv_le_mono).
  assert (Hex : exists p1 p2,
            current_position s now1 = Ok (Some p1)
            /\ current_position s now2 = Ok (Some p2)
            /\ (l <= t -> p1 <= p2) /\ (t <= l -> p2 <= p1)).
  { unfold current_position. destruct (_position_confirmed s); simpl.
    - rewrite Hl. exists l, l. repeat split; lia.
    - rewrite !(_calculate_position_known s _ l t Hl Ht).
      destruct (position_reached_or_exceeded s (t - l)).
      + exists t, t. repeat split; lia.
      + rewrite P1, P2. simpl.
        destruct (Qltb _ (elapsed_time s now1)) eqn:E1.
        * replace (Qltb _ (elapsed_time s now2)) with true.
          -- exists t, t. repeat split; lia.
          -- symmetry. apply Qltb_lt. apply Qltb_lt in E1. lra.
        * apply Qltb_ge in E1.
          destruct (Qltb _ (elapsed_time s now2)) eqn:E2.
          -- eexists. exists t. split; [reflexivity|]. split; [reflexivity|].
             destruct (progress_bounds _ _ _ _ He1 E1 P1) as [H0 H1].
             pose proof (int_between l t pr1 H0 H1) as Hb. simpl in Hb.
             split; intros Hlt; [apply (proj1 Hb) | apply (proj2 Hb)]; exact Hlt.
          -- eexists. eexists. split; [reflexivity|]. split; [reflexivity|].
             apply int_progress_mono, H12. }
  destruct Hex as (p1 & p2 & C1 & C2 & Hup & Hdown).
  exists p1, p2. split; [exact C1|]. split; [exact C2|].
  pose proof (current_position_between s now1 l t p1 Hl Ht Hclock C1) as B1.
  pose proof (current_position_between s now2 l t p2 Hl Ht Hclock2 C2) as B2.
  split; intros Hlt.
  - repeat split; [apply B1 | apply Hup | apply B2]; exact Hlt.
  - repeat split; [apply B2 | apply Hdown | apply B1]; exact Hlt.
Qed.

Lemma current_position_monotone_no_slats_witness :
  exists s p1 p2,
    start_travel docstring_cover 60 0 = Ok s
    /\ current_position s 10 = Ok (Some p1)
    /\ current_position s 20 = Ok (Some p2)
    /\ 60 <= p2 /\ p2 <= p1 /\ p1 <= 90.
Proof.
  eexists.
  match goal with
  | |- exists p1 p2, ?st = Ok ?c /\ _ =>
      unify st (Ok c);
      destruct (current_position_monotone_no_slats c 10 20 90 60
                  eq_refl eq_refl)
        as (p1 & p2 & C1 & C2 & _ & Hdown)
  end.
  - reflexivity.
  - reflexivity.
  - discriminate.
  - discriminate.
  - exists p1, p2. split; [reflexivity|]. split; [exact C1|].
    split; [exact C2|]. apply Hdown. discriminate.
Defined.

(** ** Confirmed positions *)

(** A confirmed object answers with its last known position, at every clock
    reading and whatever target and direction it holds. *)
Lemma current_position_confirmed (s : TravelCalculator) (now : Q) :
  _position_confirmed s = true ->
  current_position s now = Ok (_last_known_position s).
Proof. intros H. unfold current_position. now rewrite H. Qed.

(** After [set_position(p)] the estimate is [p] at every clock reading; the
    cover counts as open exactly when [p] is 0, as closed exactly when [p] is
    100, and as traveling exactly when the target it had is not [p]. *)
Theorem set_position_round_trip (s : TravelCalculator) (p : Z) (now now' : Q) :
  current_position (set_position s p now) now' = Ok (Some p)
  /\ is_open (set_position s p now) now' = Ok (p =? 0)
  /\ is_closed (set_position s p now) now' = Ok (p =? 100)
  /\ position_reached (set_position s p now) now'
     = Ok (opt_eqb (Some p) (_travel_to_position s))
  /\ is_traveling (set_position s p now) now'
     = Ok (negb (opt_eqb (Some p) (_travel_to_position s)))
  /\ travel_direction (set_position s p now) = travel_direction s.
Proof.
  assert (H : current_position (set_position s p now) now' = Ok (Some p))
    by reflexivity.
  unfold is_open, is_closed, position_reached, is_traveling.
  rewrite H. repeat split.
Qed.

(** An [update_position] that reports the target confirms it: from then on
    the estimate is the target and the travel is over. *)
Theorem update_position_arrival (s : TravelCalculator) (p : Z) (now now' : Q)
  (Ht : _travel_to_position s = Some p) :
  _position_confirmed (update_position s p now) = true
  /\ current_position (update_position s p now) now' = Ok (Some p)
  /\ position_reached (update_position s p now) now' = Ok true
  /\ is_traveling (update_position s p now) now' = Ok false
  /\ is_opening (update_position s p now) now' = Ok false
  /\ is_closing (update_position s p now) now' = Ok false.
Proof.
  rewrite update_position_spec.
  set (s' := mkTravelCalculator _ _ _ _ _ _ _ _ _).
  assert (Hc : _position_confirmed s' = true).
  { subst s'. simpl. rewrite Ht. simpl. now rewrite Z.eqb_refl. }
  assert (Hp : current_position s' now' = Ok (Some p)).
  { now rewrite (current_position_confirmed s' now' Hc). }
  assert (Hr : position_reached s' now' = Ok true).
  { unfold position_reached. rewrite Hp. subst s'. simpl. rewrite Ht.
    simpl. now rewrite Z.eqb_refl. }
  assert (Hi : is_traveling s' now' = Ok false).
  { unfold is_traveling. rewrite Hp. subst s'. simpl. rewrite Ht.
    simpl. now rewrite Z.eqb_refl. }
  unfold is_opening, is_closing. rewrite Hi. repeat split; assumption.
Qed.

Lemma update_position_arrival_witness :
  exists s,
    start_travel docstring_cover 60 0 = Ok s
    /\ is_traveling s 10 = Ok true
    /\ is_traveling (update_position s 60 10) 10 = Ok false.
Proof.
  eexists. split; [reflexivity|]. split; [reflexivity|].
  match goal with
  | |- is_traveling (update_position ?c _ _) _ = _ =>
      apply (update_position_arrival c 60 10 10 eq_refl)
  end.
Defined.

(** ** Objects without a position *)

Lemma current_position_none_inv (s : TravelCalculator) (now : Q) :
  current_position s now = Ok None -> _last_known_position s = None.
Proof.
  destruct (_last_known_position s) as [l|] eqn:Hl; [|reflexivity].
  intros H. destruct (current_position_known s now l Hl) as [E|[p E]];
    congruence.
Qed.

(** As long as no position is known there is no estimate, the object is not
    traveling in any direction, it is neither open nor closed, its (absent)
    target counts as reached, and [stop] does nothing. *)
Theorem never_known_predicates (s : TravelCalculator) (now : Q)
  (Hr : reachable s) (Hn : _last_known_position s = None) :
  current_position s now = Ok None
  /\ is_traveling s now = Ok false
  /\ position_reached s now = Ok true
  /\ is_opening s now = Ok false
  /\ is_closing s now = Ok false
  /\ is_open s now = Ok false
  /\ is_closed s now = Ok false
  /\ stop s now = Ok s.
Proof.
  destruct (reachable_never_known s Hr Hn) as (_ & Ht & _ & Hd).
  pose proof (current_position_unknown s now Hn) as Hc.
  unfold is_opening, is_closing, is_traveling, position_reached, is_open,
    is_closed, stop.
  rewrite Hc, Ht. repeat split.
Qed.

Lemma never_known_predicates_witness :
  current_position (init 30 40 1 2) 7 = Ok None
  /\ position_reached (init 30 40 1 2) 7 = Ok true.
Proof.
  destruct (never_known_predicates (init 30 40 1 2) 7
              (reachable_init 30 40 1 2) eq_refl) as (H1 & _ & H2 & _).
  split; assumption.
Defined.

(** ** What every call keeps *)

Lemma exec_well_formed (c : call) (s s' : TravelCalculator) (now : Q) :
  well_formed s -> exec c s now = Ok s' -> well_formed s'.
Proof.
  intros W. pose proof W as (W1 & W2 & W3).
  assert (Hstop : forall a a', well_formed a -> stop a now = Ok a' ->
                    well_formed a').
  { intros a a' Wa H. destruct (stop_inv _ _ _ H) as [[_ ->]|(p & _ & ->)];
      [exact Wa|].
    repeat split; simpl; congruence. }
  assert (Hstart : forall t a a', well_formed a ->
                     start_travel a t now = Ok a' -> well_formed a').
  { intros t a a' (A1 & A2 & A3). unfold start_travel.
    destruct (_last_known_position a) as [l|] eqn:Hl.
    - destruct (stop a now) as [a1|] eqn:Hs; simpl; [|discriminate].
      intros [= <-].
      destruct (stop_keeps_known _ _ _ _ Hl Hs) as [q Hq].
      repeat split; simpl; congruence.
    - intros [= <-]. repeat split; simpl; try congruence.
      intros H. apply A2, H. }
  destruct c; simpl; unfold start_travel_up, start_travel_down,
    start_travel_tilt_up, start_travel_tilt_down;
    rewrite ?start_travel_tilt_eq; eauto.
  - intros [= <-]. repeat split; simpl; intuition congruence.
  - intros [= <-]. rewrite update_position_spec.
    repeat split; simpl; intuition congruence.
Qed.

(** Every object a caller can build keeps its optional fields together: a
    target only with a position, a direction other than [STOPPED] only with
    a target, a confirmation only with a position. *)
Theorem reachable_well_formed (s : TravelCalculator) :
  reachable s -> well_formed s.
Proof.
  induction 1 as [d u so sc | s s' c now Hr IH Hc].
  - repeat split; simpl; congruence.
  - eapply exec_well_formed; eassumption.
Qed.

Lemma reachable_well_formed_witness :
  exists s,
    run [(SetPosition 0, 0%Q); (StartTravel 100, 10%Q);
         (UpdatePosition 40, 30%Q); (Stop, 35%Q); (StartTravelUp, 40%Q)]
      (init 100 100 20 20) = Ok s
    /\ travel_direction s = DIRECTION_UP
    /\ well_formed s.
Proof.
  eexists. split; [vm_compute; reflexivity|]. split; [reflexivity|].
  apply reachable_well_formed.
  apply (run_reachable
           [(SetPosition 0, 0%Q); (StartTravel 100, 10%Q);
            (UpdatePosition 40, 30%Q); (Stop, 35%Q); (StartTravelUp, 40%Q)]
           (init 100 100 20 20)); [apply reachable_init |].
  vm_compute. reflexivity.
Defined.

Lemma exec_timing (c : call) (s s' : TravelCalculator) (now : Q) :
  exec c s now = Ok s' -> timing s' = timing s.
Proof.
  assert (Hstop : forall a a', stop a now = Ok a' -> timing a' = timing a).
  { intros a a' H. destruct (stop_inv _ _ _ H) as [[_ ->]|(p & _ & ->)];
      reflexivity. }
  assert (Hstart : forall t a a', start_travel a t now = Ok a' ->
                     timing a' = timing a).
  { intros t a a'. unfold start_travel.
    destruct (_last_known_position a) as [l|].
    - destruct (stop a now) as [a1|] eqn:Hs; simpl; [|discriminate].
      intros [= <-]. apply (Hstop _ _ Hs).
    - intros [= <-]. reflexivity. }
  destruct c; simpl; unfold start_travel_up, start_travel_down,
    start_travel_tilt_up, start_travel_tilt_down;
    rewrite ?start_travel_tilt_eq; eauto.
  - intros [= <-]. reflexivity.
  - intros [= <-]. rewrite update_position_spec. reflexivity.
Qed.

(** No run of calls changes the timing parameters the object was built with. *)
Theorem run_timing (cs : list (call * Q)) (s s' : TravelCalculator) :
  run cs s = Ok s' -> timing s' = timing s.
Proof.
  revert s. induction cs as [|[c now] cs IH]; simpl; intros s.
  - now intros [= <-].
  - destruct (exec c s now) as [s1|] eqn:E; simpl; [|discriminate].
    intros H. rewrite (IH _ H). apply (exec_timing _ _ _ _ E).
Qed.

Lemma run_timing_witness :
  exists s, run late_start_calls (init 100 90 20 10) = Ok s
            /\ timing s = (100, 90, 20, 10)%Q.
Proof.
  eexists. split; [reflexivity|].
  apply (run_timing late_start_calls (init 100 90 20 10)). reflexivity.
Defined.

(** Stopping a stopped object changes nothing. *)
Theorem stop_idempotent (s s1 s2 : TravelCalculator) (now now' : Q) :
  stop s now = Ok s1 -> stop s1 now' = Ok s2 -> s2 = s1.
Proof.
  intros H1 H2. destruct (stop_inv _ _ _ H1) as [[Hc ->]|(p & Hc & ->)].
  - apply current_position_none_inv in Hc.
    rewrite (stop_unknown s now' Hc) in H2. congruence.
  - destruct (stop_inv _ _ _ H2) as [[Hc2 ->]|(q & Hc2 & ->)];
      [reflexivity|].
    destruct (current_position_stopped_at s p now') as [E|E];
      rewrite E in Hc2; [|discriminate].
    injection Hc2 as <-. reflexivity.
Qed.

Lemma stop_idempotent_witness :
  exists s1, stop (slats_cover_closing 100) 19 = Ok s1
             /\ _last_known_position s1 = Some 9
             /\ stop s1 50 = Ok s1.
Proof.
  eexists. split; [reflexivity|]. split; [reflexivity|].
  match goal with
  | |- stop ?c _ = _ =>
      destruct (stop c 50) as [s2|] eqn:E; [|discriminate E];
      rewrite (stop_idempotent (slats_cover_closing 100) c s2 19 50 eq_refl E)
  end.
  reflexivity.
Defined.

(** ** The predicates *)

(** The six predicates raise exactly when the estimate does. *)
Theorem predicates_raise (s : TravelCalculator) (now : Q) :
  (is_traveling s now = ZeroDivisionError
   <-> current_position s now = ZeroDivisionError)
  /\ (position_reached s now = ZeroDivisionError
      <-> current_position s now = ZeroDivisionError)
  /\ (is_opening s now = ZeroDivisionError
      <-> current_position s now = ZeroDivisionError)
  /\ (is_closing s now = ZeroDivisionError
      <-> current_position s now = ZeroDivisionError)
  /\ (is_open s now = ZeroDivisionError
      <-> current_position s now = ZeroDivisionError)
  /\ (is_closed s now = ZeroDivisionError
      <-> current_position s now = ZeroDivisionError).
Proof.
  unfold is_opening, is_closing, is_traveling, position_reached, is_open,
    is_closed.
  destruct (current_position s now) as [p|]; simpl;
    repeat split; congruence.
Qed.

(** [is_traveling] is the negation of [position_reached]; a cover is never
    opening and closing at once, never open and closed at once, and once the
    target is reached it is neither opening nor closing. *)
Theorem predicates_exclusive (s : TravelCalculator) (now : Q) :
  is_traveling s now = fmap negb (position_reached s now)
  /\ ~ (is_opening s now = Ok true /\ is_closing s now = Ok true)
  /\ ~ (is_open s now = Ok true /\ is_closed s now = Ok true)
  /\ (position_reached s now = Ok true ->
      is_opening s now = Ok false /\ is_closing s now = Ok false).
Proof.
  unfold is_opening, is_closing, is_traveling, position_reached, is_open,
    is_closed.
  destruct (current_position s now) as [p|]; simpl.
  - split; [reflexivity|]. split; [|split].
    + intros [[= H1] [= H2]].
      apply andb_prop in H1 as [_ H1]. apply andb_prop in H2 as [_ H2].
      destruct (travel_direction s); discriminate.
    + intros [[= H1] [= H2]]. destruct p as [p|]; simpl in *; [|discriminate].
      apply Z.eqb_eq in H1, H2. unfold position_open, position_closed in *.
      lia.
    + intros [= ->]. split; reflexivity.
  - split; [reflexivity|]. repeat split; try discriminate;
      intros [H _]; discriminate.
Qed.

Lemma predicates_exclusive_witness :
  is_opening (stopped_at docstring_cover 90) 1 = Ok false
  /\ is_closing (stopped_at docstring_cover 90) 1 = Ok false.
Proof.
  apply (proj2 (proj2 (proj2
           (predicates_exclusive (stopped_at docstring_cover 90) 1)))).
  reflexivity.
Defined.

(** ** Arrival *)

Lemma int_target (l t : Z) (pr : Q) :
  (pr == 1)%Q -> int (inject_Z l + inject_Z (t - l) * pr)%Q = t.
Proof.
  intros H. transitivity (int (inject_Z t)); [|apply int_inject_Z].
  apply int_Qeq. rewrite H, inject_Z_sub. ring.
Qed.

Lemma int_start (l t : Z) (pr : Q) :
  (pr == 0)%Q -> int (inject_Z l + inject_Z (t - l) * pr)%Q = l.
Proof.
  intros H. transitivity (int (inject_Z l)); [|apply int_inject_Z].
  apply int_Qeq. rewrite H. ring.
Qed.

(** What the predicates say when the estimate is the target. *)
Lemma predicates_at_target (s : TravelCalculator) (now : Q) (t : Z) :
  _travel_to_position s = Some t ->
  current_position s now = Ok (Some t) ->
  position_reached s now = Ok true
  /\ is_traveling s now = Ok false
  /\ is_opening s now = Ok false
  /\ is_closing s now = Ok false.
Proof.
  intros Ht Hc.
  unfold is_opening, is_closing, is_traveling, position_reached.
  rewrite Hc, Ht. simpl. rewrite Z.eqb_refl. repeat split.
Qed.

(** Exact arrival.  An unconfirmed travel is at its target, exactly, as soon
    as the elapsed time exceeds the travel time, and already when it equals
    the travel time provided the slats time is shorter than the travel time;
    the target then counts as reached. *)
Theorem exact_arrival (s : TravelCalculator) (now : Q) (l t : Z)
  (Hc : _position_confirmed s = false)
  (Hl : _last_known_position s = Some l)
  (Ht : _travel_to_position s = Some t)
  (Htime : (calculate_travel_time s l t < elapsed_time s now)%Q
           \/ ((elapsed_time s now == calculate_travel_time s l t)%Q
               /\ (position_slats_time s l t
                   < calculate_travel_time s l t)%Q)) :
  current_position s now = Ok (Some t)
  /\ position_reached s now = Ok true
  /\ is_traveling s now = Ok false
  /\ is_opening s now = Ok false
  /\ is_closing s now = Ok false.
Proof.
  assert (H : current_position s now = Ok (Some t)).
  { unfold current_position. rewrite Hc. simpl.
    rewrite (_calculate_position_known s now l t Hl Ht).
    destruct (position_reached_or_exceeded s (t - l)); [reflexivity|].
    destruct Htime as [E|[E Hs]].
    - apply Qltb_lt in E. now rewrite E.
    - replace (Qltb _ (elapsed_time s now)) with false
        by (symmetry; apply Qltb_ge; lra).
      unfold progress.
      replace (Qltb (elapsed_time s now) _) with false
        by (symmetry; apply Qltb_ge; lra).
      rewrite pydiv_ok by lra. cbn [bind].
      rewrite int_target; [reflexivity|]. rewrite E. field. lra. }
  split; [exact H|]. apply (predicates_at_target s now t Ht H).
Qed.

Lemma exact_arrival_witness :
  current_position (slats_cover_closing 100) 100 = Ok (Some 100)
  /\ position_reached (slats_cover_closing 100) 100 = Ok true.
Proof.
  destruct (exact_arrival (slats_cover_closing 100) 100 0 100
              eq_refl eq_refl eq_refl) as (H1 & H2 & _).
  - right. split; reflexivity.
  - split; assumption.
Defined.

(** ** Starting a travel *)

(** Sent to the position it is estimated at, the cover takes the direction
    [DIRECTION_UP] but is at its target at once and at every later reading:
    it is not traveling and not opening, and the estimate cannot raise. *)
Theorem start_travel_same_position (s : TravelCalculator) (l q : Z)
  (now now' : Q)
  (Hl : _last_known_position s = Some l)
  (Hc : current_position s now = Ok (Some q)) :
  exists s',
    start_travel s q now = Ok s'
    /\ travel_direction s' = DIRECTION_UP
    /\ current_position s' now' = Ok (Some q)
    /\ position_reached s' now' = Ok true
    /\ is_traveling s' now' = Ok false
    /\ is_opening s' now' = Ok false.
Proof.
  eexists. split; [apply (start_travel_known s l q q now Hl Hc)|].
  replace (q >? q) with false
    by (symmetry; rewrite Z.gtb_ltb; apply Z.ltb_irrefl).
  split; [reflexivity|].
  match goal with |- current_position ?c _ = _ /\ _ => set (s' := c) end.
  assert (H : current_position s' now' = Ok (Some q)).
  { unfold current_position. simpl.
    rewrite (_calculate_position_known s' now' q q eq_refl eq_refl).
    unfold position_reached_or_exceeded. rewrite Z.sub_diag. reflexivity. }
  split; [exact H|].
  destruct (predicates_at_target s' now' q eq_refl H) as (H1 & H2 & H3 & _).
  repeat split; assumption.
Qed.

Lemma start_travel_same_position_witness :
  exists s',
    start_travel docstring_cover 90 0 = Ok s'
    /\ travel_direction s' = DIRECTION_UP
    /\ is_opening s' 0 = Ok false.
Proof.
  destruct (start_travel_same_position docstring_cover 90 90 0 0
              eq_refl eq_refl) as (s' & H1 & H2 & _ & _ & _ & H3).
  exists s'. repeat split; assumption.
Defined.

(** The direction [start_travel] sets never lets the interpolation take the
    travel for over before it began. *)
Lemma start_travel_not_reached (s : TravelCalculator) (q t : Z) :
  q <> t ->
  travel_direction s = (if t >? q then DIRECTION_DOWN else DIRECTION_UP) ->
  position_reached_or_exceeded s (t - q) = false.
Proof.
  intros Hq Hd. unfold position_reached_or_exceeded. rewrite Hd.
  destruct (t >? q) eqn:E.
  - apply Z.gtb_lt in E.
    replace (t - q <=? 0) with false by (symmetry; apply Z.leb_gt; lia).
    simpl. now rewrite andb_false_r.
  - rewrite Z.gtb_ltb in E. apply Z.ltb_ge in E.
    replace (t - q >=? 0) with false
      by (symmetry; rewrite Z.geb_leb; apply Z.leb_gt; lia).
    simpl. now rewrite andb_false_r.
Qed.

(** A travel starts at its origin: asked at the clock reading of the start,
    the estimate is the position [start_travel] took as origin, provided the
    slats time that applies is not negative and shorter than the travel
    time. *)
Theorem travel_starts_at_origin (s s' : TravelCalculator) (l q t : Z)
  (now : Q)
  (Hl : _last_known_position s = Some l)
  (Hc : current_position s now = Ok (Some q))
  (Hs : start_travel s t now = Ok s')
  (Hslats : (0 <= position_slats_time s' q t)%Q)
  (Htime : (position_slats_time s' q t < calculate_travel_time s' q t)%Q) :
  _last_known_position s' = Some q
  /\ current_position s' now = Ok (Some q).
Proof.
  rewrite (start_travel_known s l q t now Hl Hc) in Hs.
  injection Hs as <-.
  match goal with |- _ /\ current_position ?c _ = _ => set (s' := c) in * end.
  split; [reflexivity|].
  unfold current_position. simpl.
  rewrite (_calculate_position_known s' now q t eq_refl eq_refl).
  destruct (Z.eq_dec q t) as [->|Hq].
  { unfold position_reached_or_exceeded. rewrite Z.sub_diag. simpl.
    replace (t >? t) with false
      by (symmetry; rewrite Z.gtb_ltb; apply Z.ltb_irrefl).
    reflexivity. }
  rewrite (start_travel_not_reached s' q t Hq eq_refl).
  assert (He : (elapsed_time s' now == 0)%Q)
    by (unfold elapsed_time; simpl; ring).
  replace (Qltb _ (elapsed_time s' now)) with false
    by (symmetry; apply Qltb_ge; lra).
  unfold progress. destruct (Qltb (elapsed_time s' now) _) eqn:E.
  - apply Qltb_lt in E. rewrite pydiv_ok by lra. cbn [bind].
    rewrite int_start; [reflexivity|]. rewrite He. field. lra.
  - apply Qltb_ge in E. rewrite pydiv_ok by lra. cbn [bind].
    rewrite int_start; [reflexivity|].
    assert (Hz : (position_slats_time s' q t == 0)%Q) by lra.
    rewrite He, Hz. field. lra.
Qed.

Lemma travel_starts_at_origin_witness :
  exists s',
    start_travel (slats_cover 100) 100 0 = Ok s'
    /\ current_position s' 0 = Ok (Some 0).
Proof.
  exists (slats_cover_closing 100). split; [reflexivity|].
  apply (travel_starts_at_origin (slats_cover 100) (slats_cover_closing 100)
           0 0 100 0 eq_refl eq_refl eq_refl); [discriminate | reflexivity].
Defined.

(** A travel started from the estimate [q] is at its target at every clock
    reading later than the start by more than the travel time from [q]. *)
Theorem start_travel_arrival (s : TravelCalculator) (l q t : Z) (now now' : Q)
  (Hl : _last_known_position s = Some l)
  (Hc : current_position s now = Ok (Some q))
  (Htime : (calculate_travel_time s q t < now' - now)%Q) :
  exists s',
    start_travel s t now = Ok s'
    /\ current_position s' now' = Ok (Some t)
    /\ position_reached s' now' = Ok true
    /\ is_traveling s' now' = Ok false.
Proof.
  eexists. split; [apply (start_travel_known s l q t now Hl Hc)|].
  match goal with |- current_position ?c _ = _ /\ _ => set (s' := c) end.
  destruct (exact_arrival s' now' q t eq_refl eq_refl eq_refl)
    as (H1 & H2 & H3 & _).
  - left. exact Htime.
  - repeat split; assumption.
Qed.

Lemma start_travel_arrival_witness :
  exists s',
    start_travel docstring_cover 60 0 = Ok s'
    /\ current_position s' 31 = Ok (Some 60).
Proof.
  destruct (start_travel_arrival docstring_cover 90 90 60 0 31
              eq_refl eq_refl) as (s' & H1 & H2 & _).
  - reflexivity.
  - exists s'. split; assumption.
Defined.

(** [start_travel_up] from a confirmed position of the scale aims at 0 with
    [DIRECTION_UP], and the cover is open at every clock reading later than
    the start by more than the travel time the code computes from that
    position to 0. *)
Theorem start_travel_up_arrival (s : TravelCalculator) (l : Z) (now now' : Q)
  (Hl : _last_known_position s = Some l)
  (Hc : _position_confirmed s = true)
  (Hpos : 0 <= l)
  (Htime : (calculate_travel_time s l position_open < now' - now)%Q) :
  exists s',
    start_travel_up s now = Ok s'
    /\ travel_direction s' = DIRECTION_UP
    /\ _last_known_position s' = Some l
    /\ _travel_to_position s' = Some position_open
    /\ current_position s' now' = Ok (Some position_open)
    /\ is_open s' now' = Ok true
    /\ is_closed s' now' = Ok false
    /\ is_traveling s' now' = Ok false.
Proof.
  assert (Hp : current_position s now = Ok (Some l))
    by (rewrite (current_position_confirmed s now Hc); now rewrite Hl).
  unfold start_travel_up.
  destruct (start_travel_arrival s l l position_open now now' Hl Hp Htime)
    as (s' & H1 & H2 & _ & H4).
  exists s'. split; [exact H1|].
  rewrite (start_travel_known s l l position_open now Hl Hp) in H1.
  assert (Hd : (position_open >? l) = false)
    by (unfold position_open; rewrite Z.gtb_ltb; apply Z.ltb_ge; exact Hpos).
  rewrite Hd in H1. injection H1 as <-.
  unfold is_open, is_closed. rewrite H2. repeat split. exact H4.
Qed.

Lemma start_travel_up_arrival_witness :
  exists s',
    start_travel_up (set_position (init 30 50 4 6) 40 0) 0 = Ok s'
    /\ travel_direction s' = DIRECTION_UP
    /\ is_open s' 16 = Ok true.
Proof.
  destruct (start_travel_up_arrival (set_position (init 30 50 4 6) 40 0)
              40 0 16 eq_refl eq_refl)
    as (s' & H1 & H2 & _ & _ & _ & H3 & _).
  - discriminate.
  - reflexivity.
  - exists s'. repeat split; assumption.
Defined.

(** [start_travel_down] from a confirmed position of the scale aims at 100,
    with [DIRECTION_DOWN] unless the cover is at 100 already (then
    [DIRECTION_UP]), and the cover is closed at every clock reading later
    than the start by more than the travel time the code computes from that
    position to 100. *)
Theorem start_travel_down_arrival (s : TravelCalculator) (l : Z)
  (now now' : Q)
  (Hl : _last_known_position s = Some l)
  (Hc : _position_confirmed s = true)
  (Hpos : l <= 100)
  (Htime : (calculate_travel_time s l position_closed < now' - now)%Q) :
  exists s',
    start_travel_down s now = Ok s'
    /\ travel_direction s'
       = (if l =? 100 then DIRECTION_UP else DIRECTION_DOWN)
    /\ _last_known_position s' = Some l
    /\ _travel_to_position s' = Some position_closed
    /\ current_position s' now' = Ok (Some position_closed)
    /\ is_closed s' now' = Ok true
    /\ is_open s' now' = Ok false
    /\ is_traveling s' now' = Ok false.
Proof.
  assert (Hp : current_position s now = Ok (Some l))
    by (rewrite (current_position_confirmed s now Hc); now rewrite Hl).
  unfold start_travel_down.
  destruct (start_travel_arrival s l l position_closed now now' Hl Hp Htime)
    as (s' & H1 & H2 & _ & H4).
  exists s'. split; [exact H1|].
  rewrite (start_travel_known s l l position_closed now Hl Hp) in H1.
  assert (Hd : (if position_closed >? l then DIRECTION_DOWN else DIRECTION_UP)
               = (if l =? 100 then DIRECTION_UP else DIRECTION_DOWN)).
  { unfold position_closed. rewrite Z.gtb_ltb.
    destruct (Z.eqb_spec l 100) as [->|Hne].
    - now rewrite Z.ltb_irrefl.
    - replace (l <? 100) with true by (symmetry; apply Z.ltb_lt; lia).
      reflexivity. }
  rewrite Hd in H1. injection H1 as <-.
  unfold is_open, is_closed. rewrite H2. repeat split. exact H4.
Qed.

Lemma start_travel_down_arrival_witness :
  exists s',
    start_travel_down (set_position (init 30 50 4 6) 40 0) 0 = Ok s'
    /\ travel_direction s' = DIRECTION_DOWN
    /\ is_closed s' 31 = Ok true.
Proof.
  destruct (start_travel_down_arrival (set_position (init 30 50 4 6) 40 0)
              40 0 31 eq_refl eq_refl)
    as (s' & H1 & H2 & _ & _ & _ & H3 & _).
  - discriminate.
  - reflexivity.
  - exists s'. repeat split; assumption.
Defined.

(** ** When the estimate returns *)

(** The estimate returns a position at every clock reading that is not
    earlier than the timestamp, as long as the slats time that applies is
    shorter than the travel time to the target. *)
Theorem current_position_returns (s : TravelCalculator) (now : Q) (l : Z)
  (Hl : _last_known_position s = Some l)
  (Hclock : (_last_known_position_timestamp s <= now)%Q)
  (Hslats : forall t, _travel_to_position s = Some t ->
              (position_slats_time s l t < calculate_travel_time s l t)%Q) :
  exists p, current_position s now = Ok (Some p).
Proof.
  destruct (current_position_known s now l Hl) as [E|E]; [|exact E].
  exfalso. unfold current_position in E.
  destruct (_position_confirmed s); simpl in E; [discriminate|].
  apply (proj1 (_calculate_position_raises s now)) in E.
  destruct E as (l' & t & Hl' & Ht & _ & Hr & Hz).
  rewrite Hl in Hl'. injection Hl' as <-.
  specialize (Hslats t Ht). unfold elapsed_time in *.
  destruct Hz as [[H1 H2]|[H1 H2]]; lra.
Qed.

Lemma current_position_returns_witness :
  exists p, current_position (slats_cover_closing 100) 20 = Ok (Some p).
Proof.
  apply (current_position_returns (slats_cover_closing 100) 20 0 eq_refl).
  - discriminate.
  - intros t [= <-]. reflexivity.
Defined.

(** A cover configured without slats times never raises once the clock has
    moved past the timestamp, whatever its travel times are. *)
Theorem current_position_returns_default (s : TravelCalculator) (now : Q)
  (l : Z)
  (Hopen : (slats_open_time s == DEFAULT_SLATS_TIME)%Q)
  (Hclose : (slats_close_time s == DEFAULT_SLATS_TIME)%Q)
  (Hl : _last_known_position s = Some l)
  (Hclock : (_last_known_position_timestamp s < now)%Q) :
  exists p, current_position s now = Ok (Some p).
Proof.
  destruct (current_position_known s now l Hl) as [E|E]; [|exact E].
  exfalso. unfold current_position in E.
  destruct (_position_confirmed s); simpl in E; [discriminate|].
  apply (proj1 (_calculate_position_raises s now)) in E.
  destruct E as (l' & t & _ & _ & _ & Hr & Hz).
  assert (Hs : (position_slats_time s l' t == 0)%Q).
  { unfold position_slats_time, DEFAULT_SLATS_TIME in *.
    destruct ((l' =? 0) || (t =? 0)); [|reflexivity].
    destruct (TravelStatus_eqb _ _); assumption. }
  unfold elapsed_time in *.
  destruct Hz as [[H1 H2]|[H1 H2]]; lra.
Qed.

Lemma current_position_returns_default_witness :
  exists p, current_position (stopped_at docstring_cover 90) 1 = Ok (Some p).
Proof.
  apply (current_position_returns_default (stopped_at docstring_cover 90) 1
           90); reflexivity.
Defined.

(** ** Inside a phase *)

(** Within the slats phase, and within the phase after it, the progress grows
    with the elapsed time. *)
Lemma progress_mono (e1 e2 sl r pr1 pr2 : Q) :
  (0 <= e1)%Q -> (e1 <= e2)%Q -> (e2 <= r)%Q ->
  (e2 < sl)%Q \/ (sl <= e1)%Q ->
  progress e1 sl r = Ok pr1 -> progress e2 sl r = Ok pr2 ->
  (pr1 <= pr2)%Q.
Proof.
  intros H0 H12 Hr Hphase. unfold progress.
  destruct Hphase as [Hs|Hs].
  - replace (Qltb e1 sl) with true by (symmetry; apply Qltb_lt; lra).
    replace (Qltb e2 sl) with true by (symmetry; apply Qltb_lt; lra).
    destruct (pydiv e1 sl) as [q1|] eqn:D1; simpl; [|discriminate].
    destruct (pydiv e2 sl) as [q2|] eqn:D2; simpl; [|discriminate].
    intros [= <-] [= <-].
    apply pydiv_inv in D1 as [_ ->]. apply pydiv_inv in D2 as [_ ->].
    assert (Hq : (e1 / sl <= e2 / sl)%Q) by (apply Qdiv_le_mono; lra).
    lra.
  - replace (Qltb e1 sl) with false by (symmetry; apply Qltb_ge; lra).
    replace (Qltb e2 sl) with false by (symmetry; apply Qltb_ge; lra).
    intros D1 D2.
    apply pydiv_inv in D1 as [Hd ->]. apply pydiv_inv in D2 as [_ ->].
    apply Qdiv_le_mono; lra.
Qed.

(** Two estimates taken in the same phase of a travel (both inside the slats
    phase, or both after it) are in order: the later one is nearer to the
    target, and neither passes it. *)
Theorem current_position_monotone_in_phase (s : TravelCalculator)
  (now1 now2 : Q) (l t p1 p2 : Z)
  (Hl : _last_known_position s = Some l)
  (Ht : _travel_to_position s = Some t)
  (Hclock : (_last_known_position_timestamp s <= now1)%Q)
  (Hnow : (now1 <= now2)%Q)
  (Hphase : (elapsed_time s now2 < position_slats_time s l t)%Q
            \/ (position_slats_time s l t <= elapsed_time s now1)%Q)
  (Hp1 : current_position s now1 = Ok (Some p1))
  (Hp2 : current_position s now2 = Ok (Some p2)) :
  (l <= t -> l <= p1 /\ p1 <= p2 /\ p2 <= t)
  /\ (t <= l -> t <= p2 /\ p2 <= p1 /\ p1 <= l).
Proof.
  assert (Hclock2 : (_last_known_position_timestamp s <= now2)%Q) by lra.
  pose proof (current_position_between s now1 l t p1 Hl Ht Hclock Hp1) as B1.
  pose proof (current_position_between s now2 l t p2 Hl Ht Hclock2 Hp2) as B2.
  assert (Hm : (l <= t -> p1 <= p2) /\ (t <= l -> p2 <= p1)).
  { unfold current_position in Hp1, Hp2.
    destruct (_position_confirmed s); simpl in Hp1, Hp2.
    - rewrite Hl in Hp1, Hp2. injection Hp1 as <-. injection Hp2 as <-. lia.
    - rewrite (_calculate_position_known s now1 l t Hl Ht) in Hp1.
      rewrite (_calculate_position_known s now2 l t Hl Ht) in Hp2.
      destruct (position_reached_or_exceeded s (t - l)).
      { injection Hp1 as <-. injection Hp2 as <-. lia. }
      destruct (Qltb _ (elapsed_time s now2)) eqn:E2.
      { injection Hp2 as <-. lia. }
      apply Qltb_ge in E2.
      assert (He : (elapsed_time s now1 <= elapsed_time s now2)%Q)
        by (unfold elapsed_time; lra).
      replace (Qltb _ (elapsed_time s now1)) with false in Hp1
        by (symmetry; apply Qltb_ge; lra).
      destruct (progress (elapsed_time s now1) _ _) as [pr1|] eqn:P1;
        simpl in Hp1; [|discriminate].
      destruct (progress (elapsed_time s now2) _ _) as [pr2|] eqn:P2;
        simpl in Hp2; [|discriminate].
      injection Hp1 as <-. injection Hp2 as <-.
      apply int_progress_mono.
      assert (He0 : (0 <= elapsed_time s now1)%Q)
        by (unfold elapsed_time; lra).
      apply (progress_mono _ _ _ _ _ _ He0 He E2 Hphase P1 P2). }
  split; intros Hlt.
  - repeat split; [apply B1 | apply Hm | apply B2]; exact Hlt.
  - repeat split; [apply B2 | apply Hm | apply B1]; exact Hlt.
Qed.

Lemma current_position_monotone_in_phase_witness :
  current_position (slats_cover_closing 100) 21 = Ok (Some 1)
  /\ current_position (slats_cover_closing 100) 60 = Ok (Some 50)
  /\ 0 <= 1 /\ 1 <= 50 /\ 50 <= 100.
Proof.
  split; [reflexivity|]. split; [reflexivity|].
  apply (current_position_monotone_in_phase (slats_cover_closing 100)
           21 60 0 100 1 50 eq_refl eq_refl).
  - discriminate.
  - discriminate.
  - right. discriminate.
  - reflexivity.
  - reflexivity.
  - discriminate.
Defined.

(** Inside the slats phase the estimate stays within the first tenth of the
    way from origin to target. *)
Theorem slats_phase_bound (s : TravelCalculator) (now : Q) (l t : Z)
  (Hc : _position_confirmed s = false)
  (Hl : _last_known_position s = Some l)
  (Ht : _travel_to_position s = Some t)
  (Hreached : position_reached_or_exceeded s (t - l) = false)
  (Hclock : (_last_known_position_timestamp s <= now)%Q)
  (Htime : (elapsed_time s now <= calculate_travel_time s l t)%Q)
  (Hslats : (elapsed_time s now < position_slats_time s l t)%Q) :
  exists p,
    current_position s now = Ok (Some p)
    /\ (l <= t ->
        l <= p <= int (inject_Z l + inject_Z (t - l) * (1 # 10))%Q)
    /\ (t <= l ->
        int (inject_Z l + inject_Z (t - l) * (1 # 10))%Q <= p <= l).
Proof.
  assert (He : (0 <= elapsed_time s now)%Q) by (unfold elapsed_time; lra).
  unfold current_position. rewrite Hc. simpl.
  rewrite (_calculate_position_known s now l t Hl Ht), Hreached.
  replace (Qltb _ (elapsed_time s now)) with false
    by (symmetry; apply Qltb_ge; exact Htime).
  destruct (progress _ _ _) as [pr|] eqn:P.
  - simpl. eexists. split; [reflexivity|].
    destruct (progress_bounds _ _ _ _ He Htime P) as [H0 H1].
    assert (H10 : (pr <= 1 # 10)%Q).
    { unfold progress in P. apply Qltb_lt in Hslats. rewrite Hslats in P.
      destruct (pydiv _ _) as [q|] eqn:D; simpl in P; [|discriminate].
      injection P as <-. apply pydiv_inv in D as [_ ->].
      apply Qltb_lt in Hslats.
      assert (Hq : (elapsed_time s now / position_slats_time s l t <= 1)%Q)
        by (apply Qle_shift_div_r; lra).
      lra. }
    pose proof (int_between l t pr H0 H1) as Hb. cbv zeta in Hb.
    pose proof (int_progress_mono l t pr (1 # 10) H10) as Hm. cbv zeta in Hm.
    split; intros Hlt; split;
      solve [apply Hb; exact Hlt | apply Hm; exact Hlt].
  - exfalso. apply progress_raises in P. destruct P as [[_ P]|[P _]]; lra.
Qed.

Lemma slats_phase_bound_witness :
  exists p,
    current_position (slats_cover_closing 100) 19 = Ok (Some p)
    /\ 0 <= p <= 10.
Proof.
  destruct (slats_phase_bound (slats_cover_closing 100) 19 0 100
              eq_refl eq_refl eq_refl eq_refl) as (p & Hp & Hup & _).
  - discriminate.
  - discriminate.
  - reflexivity.
  - exists p. split; [exact Hp|]. apply Hup. discriminate.
Defined.

(** ** Travel times *)

(** With each slats time between 0 and the travel time it goes with, a
    travel never takes a negative time, and never less than the slats time
    the code adds for it. *)
Theorem calculate_travel_time_at_least_slats (s : TravelCalculator)
  (from to : Z)
  (Hclose : (0 <= slats_close_time s)%Q
            /\ (slats_close_time s <= travel_time_down s)%Q)
  (Hopen : (0 <= slats_open_time s)%Q
           /\ (slats_open_time s <= travel_time_up s)%Q) :
  (0 <= calculate_travel_time s from to)%Q
  /\ ((if (from =? 0) || (to =? 0)
       then (if from >? to then slats_close_time s else slats_open_time s)
       else 0)
      <= calculate_travel_time s from to)%Q.
Proof.
  unfold calculate_travel_time.
  set (k := (inject_Z (Z.abs (to - from)) / 100)%Q).
  assert (Hk : (0 <= k)%Q).
  { subst k. apply Qle_shift_div_l; [reflexivity|].
    rewrite Qmult_0_l. change 0%Q with (inject_Z 0).
    rewrite <- Zle_Qle. lia. }
  destruct Hclose as [Hc0 Hc1]. destruct Hopen as [Ho0 Ho1].
  destruct (from >? to), ((from =? 0) || (to =? 0)); split; nra.
Qed.

Lemma calculate_travel_time_at_least_slats_witness :
  (0 <= calculate_travel_time (init 30 50 4 6) 40 0)%Q
  /\ (6 <= calculate_travel_time (init 30 50 4 6) 40 0)%Q.
Proof.
  apply (calculate_travel_time_at_least_slats (init 30 50 4 6) 40 0);
    split; discriminate.
Defined.

(** ** Reports and starts during a travel *)

(** A report that lies at or beyond the target, seen in the direction of the
    travel, ends the travel: the estimate is the target from then on, at
    every clock reading and without a division. *)
Theorem update_position_beyond_target (s : TravelCalculator) (p t : Z)
  (now now' : Q)
  (Hc : _position_confirmed s = false)
  (Ht : _travel_to_position s = Some t)
  (Hbeyond : (travel_direction s = DIRECTION_UP /\ p <= t)
             \/ (travel_direction s = DIRECTION_DOWN /\ t <= p)) :
  current_position (update_position s p now) now' = Ok (Some t)
  /\ position_reached (update_position s p now) now' = Ok true
  /\ is_traveling (update_position s p now) now' = Ok false.
Proof.
  rewrite update_position_spec.
  set (s' := mkTravelCalculator _ _ _ _ _ _ _ _ _).
  assert (H : current_position s' now' = Ok (Some t)).
  { unfold current_position. subst s'. simpl. rewrite Hc, Ht. simpl.
    destruct (p =? t) eqn:E; simpl.
    - apply Z.eqb_eq in E. now subst p.
    - unfold _calculate_position. simpl.
      unfold position_reached_or_exceeded. simpl.
      destruct Hbeyond as [[-> Hle]|[-> Hle]]; simpl.
      + rewrite andb_false_r.
        replace (t - p >=? 0) with true
          by (symmetry; rewrite Z.geb_leb; apply Z.leb_le; lia).
        reflexivity.
      + replace (t - p <=? 0) with true by (symmetry; apply Z.leb_le; lia).
        reflexivity. }
  split; [exact H|].
  destruct (predicates_at_target s' now' t Ht H) as (H1 & H2 & _).
  split; assumption.
Qed.

Lemma update_position_beyond_target_witness :
  exists s,
    start_travel docstring_cover 60 0 = Ok s
    /\ current_position (update_position s 55 10) 10 = Ok (Some 60).
Proof.
  eexists. split; [reflexivity|].
  match goal with
  | |- current_position (update_position ?c _ _) _ = _ =>
      apply (update_position_beyond_target c 55 60 10 10 eq_refl eq_refl)
  end.
  left. split; [reflexivity | discriminate].
Defined.

(** Right after a start toward another position the cover is traveling, and
    it is closing exactly when the target lies above the origin, opening
    otherwise (under the condition of [travel_starts_at_origin]). *)
Theorem start_travel_moving (s s' : TravelCalculator) (l q t : Z) (now : Q)
  (Hl : _last_known_position s = Some l)
  (Hc : current_position s now = Ok (Some q))
  (Hs : start_travel s t now = Ok s')
  (Hqt : q <> t)
  (Hslats : (0 <= position_slats_time s' q t)%Q)
  (Htime : (position_slats_time s' q t < calculate_travel_time s' q t)%Q) :
  is_traveling s' now = Ok true
  /\ position_reached s' now = Ok false
  /\ is_closing s' now = Ok (t >? q)
  /\ is_opening s' now = Ok (negb (t >? q)).
Proof.
  destruct (travel_starts_at_origin s s' l q t now Hl Hc Hs Hslats Htime)
    as [_ Hp].
  rewrite (start_travel_known s l q t now Hl Hc) in Hs.
  injection Hs as <-.
  unfold is_opening, is_closing, is_traveling, position_reached.
  rewrite Hp. simpl.
  replace (q =? t) with false by (symmetry; apply Z.eqb_neq; exact Hqt).
  simpl. destruct (t >? q); repeat split.
Qed.

Lemma start_travel_moving_witness :
  exists s',
    start_travel docstring_cover 60 0 = Ok s'
    /\ is_opening s' 0 = Ok true
    /\ is_closing s' 0 = Ok false.
Proof.
  eexists. split; [reflexivity|].
  match goal with
  | |- is_opening ?c _ = _ /\ _ =>
      destruct (start_travel_moving docstring_cover c 90 90 60 0
                  eq_refl eq_refl eq_refl) as (_ & _ & H1 & H2)
  end.
  - discriminate.
  - discriminate.
  - reflexivity.
  - split; [exact H2 | exact H1].
Defined.
